(** * Concrete Dropout (condrop/concrete_dropout.py)

    A shallow embedding of the [ConcreteDropout] module and the properties
    of its [forward] pass.

    Numbers are modelled in exact real arithmetic ([R]): a tensor carries
    its dtype tag and its shape, and its elements are reals.  Rounding,
    infinities and NaN of the floating-point formats are outside the model,
    with one exception: the float32 kernel of [torch.sigmoid] is also
    modelled with its rounding ([Float32.sigmoid]), for the range of [p].

    Tensor objects live in a store and are named by references, as Python
    names and attributes are: a functional operation allocates a new
    object, an augmented assignment ([+=], [*=]) on a tensor updates the
    object in place. *)

From Stdlib Require Import Reals Lra Lia List Bool Arith.
Import ListNotations.

Open Scope R_scope.

(** ** The fragment of the tensor library the module uses *)

Module Torch.

(** The floating-point dtypes ([torch.finfo] is defined for these). *)
Inductive Dtype := float16 | bfloat16 | float32 | float64.

(** [torch.finfo(dtype).eps]: the gap between 1.0 and the next float. *)
Definition finfo_eps (d : Dtype) : R :=
  match d with
  | float16 => / 2 ^ 10
  | bfloat16 => / 2 ^ 7
  | float32 => / 2 ^ 23
  | float64 => / 2 ^ 52
  end.

(** [torch.promote_types] on the floating dtypes. *)
Definition promote_types (a b : Dtype) : Dtype :=
  match a, b with
  | float64, _ | _, float64 => float64
  | float32, _ | _, float32 => float32
  | float16, float16 => float16
  | bfloat16, bfloat16 => bfloat16
  | _, _ => float32
  end.

(** [torch.get_default_dtype()], the dtype of [torch.empty(1)]. *)
Definition default_dtype : Dtype := float32.

(** A tensor: dtype, shape and the elements in row-major order. *)
Record Tensor := mkTensor {
  dtype : Dtype;
  shape : list nat;
  data : list R
}.

Inductive Exception := IndexError | RuntimeError | TypeError | ValueError.

Definition prod (s : list nat) : nat := fold_right Nat.mul 1%nat s.

Definition numel (t : Tensor) : nat := prod (shape t).

Fixpoint shape_eqb (s1 s2 : list nat) : bool :=
  match s1, s2 with
  | [], [] => true
  | a :: s1', b :: s2' => Nat.eqb a b && shape_eqb s1' s2'
  | _, _ => false
  end.

(** The first element, for single-element tensors. *)
Definition item (t : Tensor) : R := nth 0 (data t) 0.

Fixpoint map2 {A B C} (f : A -> B -> C) (l1 : list A) (l2 : list B) : list C :=
  match l1, l2 with
  | a :: l1', b :: l2' => f a b :: map2 f l1' l2'
  | _, _ => []
  end.

(** Elementwise unary operations keep dtype and shape. *)
Definition pointwise (f : R -> R) (t : Tensor) : Tensor :=
  mkTensor (dtype t) (shape t) (map f (data t)).

Definition sigmoid_R (v : R) : R := 1 / (1 + exp (- v)).

Definition sigmoid (t : Tensor) : Tensor := pointwise sigmoid_R t.
Definition log (t : Tensor) : Tensor := pointwise ln t.
Definition pow (t : Tensor) (n : nat) : Tensor := pointwise (fun v => v ^ n) t.

(** [torch.sum(t)]: a 0-dim tensor of the same dtype. *)
Definition sum (t : Tensor) : Tensor :=
  mkTensor (dtype t) [] [fold_right Rplus 0 (data t)].

(** Type promotion of a binary operation on two floating tensors: a 0-dim
    operand does not take part when the other one has dimensions. *)
Definition result_type (a b : Tensor) : Dtype :=
  match shape a, shape b with
  | [], _ :: _ => dtype b
  | _ :: _, [] => dtype a
  | _, _ => promote_types (dtype a) (dtype b)
  end.

(** A binary elementwise operation.  In this module the two operands
    always have equal shapes or one of them is a single-element tensor of
    shape [[]] or [[1]] (a value derived from [p]); these are the cases of
    broadcasting modelled here, every other pair of shapes is rejected. *)
Definition binary (f : R -> R -> R) (a b : Tensor) : Exception + Tensor :=
  let dt := result_type a b in
  if shape_eqb (shape a) (shape b)
  then inr (mkTensor dt (shape a) (map2 f (data a) (data b)))
  else
    match shape a, shape b with
    | [], sb => inr (mkTensor dt sb (map (f (item a)) (data b)))
    | sa, [] => inr (mkTensor dt sa (map (fun v => f v (item b)) (data a)))
    | [1%nat], sb => inr (mkTensor dt sb (map (f (item a)) (data b)))
    | sa, [1%nat] => inr (mkTensor dt sa (map (fun v => f v (item b)) (data a)))
    | _, _ => inl RuntimeError
    end.

Definition add := binary Rplus.
Definition sub := binary Rminus.
Definition mul := binary Rmult.
Definition div := binary Rdiv.

(** [x[0]]: the first slice along the leading dimension. *)
Definition getitem0 (t : Tensor) : Exception + Tensor :=
  match shape t with
  | [] => inl IndexError
  | O :: _ => inl IndexError
  | S _ :: s => inr (mkTensor (dtype t) s (firstn (prod s) (data t)))
  end.

(** [torch.empty(1)]: one element of the default dtype, contents
    unspecified until written. *)
Definition empty1 : Tensor := mkTensor default_dtype [1%nat] [0].

End Torch.

Import Torch (Tensor, mkTensor, dtype, shape, data, Dtype, Exception,
              float16, bfloat16, float32, float64,
              IndexError, RuntimeError, TypeError, ValueError).

(** ** The float32 kernel of [torch.sigmoid]

    [p_logit] is a float32 tensor, and on a float32 element the kernel
    computes [1 / (1 + exp(-x))] in float32.  This module is that
    computation with its rounding, as a relation between the argument and
    the results the kernel can return. *)

Module Float32.

(** The finite float32 values, [m * 2 ^ (k - 149)]: a significand of at
    most 24 bits and an exponent [k - 149] from -149, the subnormals, up
    to 104. *)
Definition representable (f : R) : Prop :=
  exists (m : Z) (k : nat),
    (Z.abs m < 2 ^ 24)%Z /\ (k <= 253)%nat /\ f = IZR m * 2 ^ k / 2 ^ 149.

(** The largest of them, [(2 ^ 24 - 1) * 2 ^ 104]. *)
Definition max_value : R := IZR (2 ^ 24 - 1) * 2 ^ 253 / 2 ^ 149.

(** [f] is [v] with an error below one unit in the last place: no value
    lies strictly between [v] and [f].  This much is assumed of the
    library's [exp]. *)
Definition faithful (v f : R) : Prop :=
  representable f /\
  forall g, representable g -> (g <= v -> g <= f) /\ (v <= g -> f <= g).

(** [f] is [v] rounded to nearest, to either neighbour on a tie: the
    rounding of an addition and of a division. *)
Definition nearest (v f : R) : Prop :=
  representable f /\
  forall g, representable g -> Rabs (f - v) <= Rabs (g - v).

(** [p] is a result of the kernel at [x].  Above the largest value
    [exp] may return infinity, and from [2 ^ 128] on it does; then
    [1 + inf] is infinity and [1 / inf] is 0. *)
Definition sigmoid (x p : R) : Prop :=
  (max_value < exp (- x) /\ p = 0) \/
  (exp (- x) < 2 ^ 128 /\
   exists e s,
     faithful (exp (- x)) e /\ nearest (1 + e) s /\ nearest (1 / s) p).

End Float32.

(** ** Objects, the store and the interpreter state *)

(** A reference to a tensor object in the store. *)
Definition loc := nat.

(** What a Python name or attribute is bound to: a number ([int] or
    [float]) or a tensor object. *)
Inductive var := Num (r : R) | Ref (l : loc).

(** The value of an expression before it is bound to a name. *)
Inductive value := VNum (r : R) | VTensor (t : Tensor).

(** The attributes of a [ConcreteDropout] instance; [training] is the mode
    flag of [nn.Module]. *)
Record ConcreteDropout := mkConcreteDropout {
  weight_regulariser : R;
  dropout_regulariser : R;
  p_logit : loc;
  p : loc;
  temperature : R;
  mc_dropout : bool;
  regularisation : var;
  training : bool
}.

(** The wrapped layer: its parameter tensors and the function it computes
    from their current values and its input.  A layer may raise. *)
Record Layer := mkLayer {
  parameters : list loc;
  fn : list Tensor -> Tensor -> Exception + Tensor
}.

(** The state: the store of tensor objects, the instance [self], and the
    global random generator as a sequence of uniform draws in [0, 1) with
    the position of the next draw. *)
Record World := mkWorld {
  heap : list Tensor;
  self : ConcreteDropout;
  rng : nat -> R;
  rng_pos : nat
}.

(** Computations read and update the state and either return or raise;
    the updates made before an exception stay. *)
Definition M (A : Type) : Type := World -> World * (Exception + A).

Definition ret {A} (a : A) : M A := fun w => (w, inr a).

Definition bind {A B} (c : M A) (k : A -> M B) : M B :=
  fun w =>
    match c w with
    | (w', inr a) => k a w'
    | (w', inl e) => (w', inl e)
    end.

Definition raise {A} (e : Exception) : M A := fun w => (w, inl e).

Definition lift {A} (r : Exception + A) : M A := fun w => (w, r).

Declare Scope py_scope.
Delimit Scope py_scope with py.
Notation "x <- c ;; k" := (bind c (fun x => k))
  (at level 61, c at next level, right associativity) : py_scope.
Notation "c ;;; k" := (bind c (fun _ => k))
  (at level 61, right associativity) : py_scope.
Open Scope py_scope.

(** *** Store operations *)

Definition set_heap (h : list Tensor) (w : World) : World :=
  mkWorld h (self w) (rng w) (rng_pos w).

Definition set_self (s : ConcreteDropout) (w : World) : World :=
  mkWorld (heap w) s (rng w) (rng_pos w).

Definition set_rng_pos (n : nat) (w : World) : World :=
  mkWorld (heap w) (self w) (rng w) n.

(** References are always live in Python; the default is never read
    through a live reference. *)
Definition lookup (h : list Tensor) (l : loc) : Tensor := nth l h Torch.empty1.

Fixpoint update (h : list Tensor) (l : loc) (t : Tensor) : list Tensor :=
  match h, l with
  | [], _ => []
  | _ :: h', O => t :: h'
  | a :: h', S l' => a :: update h' l' t
  end.

(** A new tensor object. *)
Definition alloc (t : Tensor) : M loc :=
  fun w => (set_heap (heap w ++ [t]) w, inr (length (heap w))).

Definition load (l : loc) : M Tensor :=
  fun w => (w, inr (lookup (heap w) l)).

(** In-place write to an existing object. *)
Definition store (l : loc) (t : Tensor) : M unit :=
  fun w => (set_heap (update (heap w) l t) w, inr tt).

Definition getattr {A} (field : ConcreteDropout -> A) : M A :=
  fun w => (w, inr (field (self w))).

Definition with_p (l : loc) (s : ConcreteDropout) : ConcreteDropout :=
  mkConcreteDropout (weight_regulariser s) (dropout_regulariser s)
    (p_logit s) l (temperature s) (mc_dropout s) (regularisation s)
    (training s).

Definition with_regularisation (v : var) (s : ConcreteDropout)
  : ConcreteDropout :=
  mkConcreteDropout (weight_regulariser s) (dropout_regulariser s)
    (p_logit s) (p s) (temperature s) (mc_dropout s) v (training s).

Definition setattr_p (l : loc) : M unit :=
  fun w => (set_self (with_p l (self w)) w, inr tt).

Definition setattr_regularisation (v : var) : M unit :=
  fun w => (set_self (with_regularisation v (self w)) w, inr tt).

(** The other attributes, each written once, by [__init__]; the mode flag
    [training] is written by [nn.Module]. *)
Definition with_weight_regulariser (r : R) (s : ConcreteDropout)
  : ConcreteDropout :=
  mkConcreteDropout r (dropout_regulariser s) (p_logit s) (p s)
    (temperature s) (mc_dropout s) (regularisation s) (training s).

Definition with_dropout_regulariser (r : R) (s : ConcreteDropout)
  : ConcreteDropout :=
  mkConcreteDropout (weight_regulariser s) r (p_logit s) (p s)
    (temperature s) (mc_dropout s) (regularisation s) (training s).

Definition with_p_logit (l : loc) (s : ConcreteDropout) : ConcreteDropout :=
  mkConcreteDropout (weight_regulariser s) (dropout_regulariser s) l (p s)
    (temperature s) (mc_dropout s) (regularisation s) (training s).

Definition with_temperature (r : R) (s : ConcreteDropout) : ConcreteDropout :=
  mkConcreteDropout (weight_regulariser s) (dropout_regulariser s)
    (p_logit s) (p s) r (mc_dropout s) (regularisation s) (training s).

Definition with_mc_dropout (b : bool) (s : ConcreteDropout) : ConcreteDropout :=
  mkConcreteDropout (weight_regulariser s) (dropout_regulariser s)
    (p_logit s) (p s) (temperature s) b (regularisation s) (training s).

Definition with_training (b : bool) (s : ConcreteDropout) : ConcreteDropout :=
  mkConcreteDropout (weight_regulariser s) (dropout_regulariser s)
    (p_logit s) (p s) (temperature s) (mc_dropout s) (regularisation s) b.

(** [self.<attribute> = value]. *)
Definition setattr (f : ConcreteDropout -> ConcreteDropout) : M unit :=
  fun w => (set_self (f (self w)) w, inr tt).

(** [self.p], read as a tensor. *)
Definition self_p : M Tensor := l <- getattr p ;; load l.

(** [n] draws from the generator. *)
Definition draw (n : nat) : M (list R) :=
  fun w => (set_rng_pos (rng_pos w + n) w, inr (map (rng w) (seq (rng_pos w) n))).

(** [torch.rand_like(t)]: uniform draws with the dtype and shape of [t]. *)
Definition rand_like (t : Tensor) : M Tensor :=
  us <- draw (Torch.numel t) ;;
  ret (mkTensor (dtype t) (shape t) us).

(** [t.uniform_(from, to)]: fills the object in place. *)
Definition uniform_ (l : loc) (from to : R) : M unit :=
  if Rle_dec from to
  then t <- load l ;;
       us <- draw (Torch.numel t) ;;
       store l (mkTensor (dtype t) (shape t)
                  (map (fun u => from + u * (to - from)) us))
  else raise RuntimeError.

(** *** Arithmetic between numbers and tensors *)

(** [t op c] and [c op t] for a Python number [c]: elementwise, the
    tensor's dtype and shape. *)
Definition tensor_num (f : R -> R -> R) (t : Tensor) (c : R) : Tensor :=
  Torch.pointwise (fun v => f v c) t.

Definition num_tensor (f : R -> R -> R) (c : R) (t : Tensor) : Tensor :=
  Torch.pointwise (fun v => f c v) t.

(** A binary operator applied to two expression values. *)
Definition binop (f : R -> R -> R) (a b : value) : Exception + value :=
  match a, b with
  | VNum x, VNum y => inr (VNum (f x y))
  | VNum x, VTensor t => inr (VTensor (num_tensor f x t))
  | VTensor t, VNum y => inr (VTensor (tensor_num f t y))
  | VTensor t, VTensor u =>
      match Torch.binary f t u with
      | inr r => inr (VTensor r)
      | inl e => inl e
      end
  end.

(** The value a name holds. *)
Definition read (v : var) : M value :=
  match v with
  | Num r => ret (VNum r)
  | Ref l => t <- load l ;; ret (VTensor t)
  end.

(** Binding a name to the value of an expression: a tensor result is a
    new object. *)
Definition bind_name (v : value) : M var :=
  match v with
  | VNum r => ret (Num r)
  | VTensor t => l <- alloc t ;; ret (Ref l)
  end.

(** Augmented assignment [name op= rhs].  A number is rebound to the
    result of the operator.  A tensor is updated in place: it keeps its
    dtype and shape, and the broadcast shape must be its own. *)
Definition augmented (f : R -> R -> R) (name : var) (rhs : value) : M var :=
  match name with
  | Num r => v <- lift (binop f (VNum r) rhs) ;; bind_name v
  | Ref l =>
      t <- load l ;;
      v <- lift (binop f (VTensor t) rhs) ;;
      match v with
      | VTensor r =>
          if Torch.shape_eqb (shape r) (shape t)
          then store l (mkTensor (dtype t) (shape t) (data r)) ;;; ret (Ref l)
          else raise RuntimeError
      | VNum _ => raise TypeError
      end
  end.

(** [layer(x)]: the layer reads its parameters and returns a new tensor. *)
Definition call (layer : Layer) (x : loc) : M loc :=
  ps <- (fun w => (w, inr (map (lookup (heap w)) (parameters layer)))) ;;
  xv <- load x ;;
  r <- lift (fn layer ps xv) ;;
  alloc r.

(** ** The class [ConcreteDropout] *)

(** [__init__] (lines 39-53), statement by statement.
    [super().__init__()] puts the module in training mode.  [np.log] is
    [ln] on the positive reals; at 0 and below it numpy gives [-inf] and
    [nan], which the reals do not have, so the two logits mean what the
    code computes for bounds strictly between 0 and 1 only.  [nn.Parameter]
    wraps the tensor [uniform_] has filled: the same object.  When
    [uniform_] raises, the statements before line 47 have run and those
    from line 47 on have not. *)
Definition __init__ (weight_regulariser dropout_regulariser : R)
    (init_min init_max temperate : R) (mc_dropout : bool) : M unit :=
  (* super().__init__() *)
  setattr (with_training true) ;;;
  setattr (with_weight_regulariser weight_regulariser) ;;;
  setattr (with_dropout_regulariser dropout_regulariser) ;;;
  let init_min := ln init_min - ln (1 - init_min) in
  let init_max := ln init_max - ln (1 - init_max) in
  (* self.p_logit = nn.Parameter(torch.empty(1).uniform_(init_min, init_max)) *)
  e <- alloc Torch.empty1 ;;
  uniform_ e init_min init_max ;;;
  setattr (with_p_logit e) ;;;
  (* self.p = torch.sigmoid(self.p_logit) *)
  pl <- getattr p_logit ;;
  plv <- load pl ;;
  new_p <- alloc (Torch.sigmoid plv) ;;
  setattr_p new_p ;;;
  setattr (with_temperature temperate) ;;;
  setattr (with_mc_dropout mc_dropout) ;;;
  setattr_regularisation (Num 0).

(** [_concrete_dropout(x)] (lines 93-126). *)
Definition _concrete_dropout (x : loc) : M loc :=
  xv <- load x ;;
  let eps := Torch.finfo_eps (dtype xv) in
  let tmp := 1 / 10 in
  (* self.p = torch.sigmoid(self.p_logit) *)
  pl <- getattr p_logit ;;
  plv <- load pl ;;
  new_p <- alloc (Torch.sigmoid plv) ;;
  setattr_p new_p ;;;
  (* u_noise = torch.rand_like(x) *)
  xv <- load x ;;
  u <- rand_like xv ;;
  u_noise <- alloc u ;;
  (* drop_prob = log(p + eps) - log(1 - p + eps)
                 + log(u_noise + eps) - log(1 - u_noise + eps) *)
  p1 <- self_p ;;
  p2 <- self_p ;;
  d <- lift (Torch.sub (Torch.log (tensor_num Rplus p1 eps))
                       (Torch.log (tensor_num Rplus (num_tensor Rminus 1 p2) eps))) ;;
  u1 <- load u_noise ;;
  d <- lift (Torch.add d (Torch.log (tensor_num Rplus u1 eps))) ;;
  u2 <- load u_noise ;;
  d <- lift (Torch.sub d (Torch.log (tensor_num Rplus (num_tensor Rminus 1 u2) eps))) ;;
  drop_prob <- alloc d ;;
  (* drop_prob = torch.sigmoid(drop_prob / tmp) *)
  d <- load drop_prob ;;
  drop_prob <- alloc (Torch.sigmoid (tensor_num Rdiv d tmp)) ;;
  (* random_dropout_mask = 1.0 - drop_prob *)
  d <- load drop_prob ;;
  random_dropout_mask <- alloc (num_tensor Rminus 1 d) ;;
  (* retain_prob = 1.0 - self.p *)
  p3 <- self_p ;;
  retain_prob <- alloc (num_tensor Rminus 1 p3) ;;
  (* x = torch.mul(x, random_dropout_mask) / retain_prob *)
  xv <- load x ;;
  m <- load random_dropout_mask ;;
  xm <- lift (Torch.mul xv m) ;;
  r <- load retain_prob ;;
  q <- lift (Torch.div xm r) ;;
  x <- alloc q ;;
  ret x.

(** The loop of lines 79-81 over [layer.parameters()]. *)
Fixpoint sum_squares (params : list loc) (sum_of_squares : var) : M var :=
  match params with
  | [] => ret sum_of_squares
  | param :: rest =>
      pv <- load param ;;
      s <- augmented Rplus sum_of_squares
             (VTensor (Torch.sum (Torch.pow pv 2))) ;;
      sum_squares rest s
  end.

(** [forward(x, layer)] (lines 55-91). *)
Definition forward (x : loc) (layer : Layer) : M loc :=
  tr <- getattr training ;;
  mc <- getattr mc_dropout ;;
  output <- (if tr || mc
             then xd <- _concrete_dropout x ;; call layer xd
             else call layer x) ;;
  (* sum_of_squares = 0; for param in layer.parameters(): ... *)
  sum_of_squares <- sum_squares (parameters layer) (Num 0) ;;
  (* weights_reg = self.weight_regulariser * sum_of_squares / (1.0 - self.p) *)
  wr <- getattr weight_regulariser ;;
  sv <- read sum_of_squares ;;
  n <- lift (binop Rmult (VNum wr) sv) ;;
  p1 <- self_p ;;
  q <- lift (binop Rdiv n (VTensor (num_tensor Rminus 1 p1))) ;;
  weights_reg <- bind_name q ;;
  (* dropout_reg = self.p * torch.log(self.p) *)
  p2 <- self_p ;;
  p3 <- self_p ;;
  d <- lift (Torch.mul p2 (Torch.log p3)) ;;
  dropout_reg <- alloc d ;;
  (* dropout_reg += (1.0 - self.p) * torch.log(1.0 - self.p) *)
  p4 <- self_p ;;
  p5 <- self_p ;;
  e <- lift (Torch.mul (num_tensor Rminus 1 p4)
                       (Torch.log (num_tensor Rminus 1 p5))) ;;
  dropout_reg <- augmented Rplus (Ref dropout_reg) (VTensor e) ;;
  (* dropout_reg *= self.dropout_regulariser * x[0].numel() *)
  dr <- getattr dropout_regulariser ;;
  xv <- load x ;;
  x0 <- lift (Torch.getitem0 xv) ;;
  dropout_reg <- augmented Rmult dropout_reg
                   (VNum (dr * INR (Torch.numel x0))) ;;
  (* self.regularisation = weights_reg + dropout_reg *)
  wv <- read weights_reg ;;
  dv <- read dropout_reg ;;
  s <- lift (binop Rplus wv dv) ;;
  reg <- bind_name s ;;
  setattr_regularisation reg ;;;
  ret output.

(** ** Parts of [_concrete_dropout] and [forward], named for the proofs *)

(** Lines 83-91 of [forward], the part after the loop, as a computation
    of its own (see [forward_unfold]). *)
Definition forward_rest (x output : loc) (sum_of_squares : var) : M loc :=
  wr <- getattr weight_regulariser ;;
  sv <- read sum_of_squares ;;
  n <- lift (binop Rmult (VNum wr) sv) ;;
  p1 <- self_p ;;
  q <- lift (binop Rdiv n (VTensor (num_tensor Rminus 1 p1))) ;;
  weights_reg <- bind_name q ;;
  p2 <- self_p ;;
  p3 <- self_p ;;
  d <- lift (Torch.mul p2 (Torch.log p3)) ;;
  dropout_reg <- alloc d ;;
  p4 <- self_p ;;
  p5 <- self_p ;;
  e <- lift (Torch.mul (num_tensor Rminus 1 p4)
                       (Torch.log (num_tensor Rminus 1 p5))) ;;
  dropout_reg <- augmented Rplus (Ref dropout_reg) (VTensor e) ;;
  dr <- getattr dropout_regulariser ;;
  xv <- load x ;;
  x0 <- lift (Torch.getitem0 xv) ;;
  dropout_reg <- augmented Rmult dropout_reg
                   (VNum (dr * INR (Torch.numel x0))) ;;
  wv <- read weights_reg ;;
  dv <- read dropout_reg ;;
  s <- lift (binop Rplus wv dv) ;;
  reg <- bind_name s ;;
  setattr_regularisation reg ;;;
  ret output.

(** Lines 111-126 of [_concrete_dropout], the part after [self.p] is set,
    as a computation of its own (see [concrete_dropout_unfold]). *)
Definition dropout_rest (x : loc) (eps : R) : M loc :=
  let tmp := 1 / 10 in
  xv <- load x ;;
  u <- rand_like xv ;;
  u_noise <- alloc u ;;
  p1 <- self_p ;;
  p2 <- self_p ;;
  d <- lift (Torch.sub (Torch.log (tensor_num Rplus p1 eps))
                       (Torch.log (tensor_num Rplus (num_tensor Rminus 1 p2) eps))) ;;
  u1 <- load u_noise ;;
  d <- lift (Torch.add d (Torch.log (tensor_num Rplus u1 eps))) ;;
  u2 <- load u_noise ;;
  d <- lift (Torch.sub d (Torch.log (tensor_num Rplus (num_tensor Rminus 1 u2) eps))) ;;
  drop_prob <- alloc d ;;
  d <- load drop_prob ;;
  drop_prob <- alloc (Torch.sigmoid (tensor_num Rdiv d tmp)) ;;
  d <- load drop_prob ;;
  random_dropout_mask <- alloc (num_tensor Rminus 1 d) ;;
  p3 <- self_p ;;
  retain_prob <- alloc (num_tensor Rminus 1 p3) ;;
  xv <- load x ;;
  m <- load random_dropout_mask ;;
  xm <- lift (Torch.mul xv m) ;;
  r <- load retain_prob ;;
  q <- lift (Torch.div xm r) ;;
  x <- alloc q ;;
  ret x.

(** The state once [self.p] is set, at the start of [dropout_rest]. *)
Definition after_set_p (w : World) : World :=
  mkWorld (heap w ++ [Torch.sigmoid (lookup (heap w) (p_logit (self w)))])
    (with_p (length (heap w)) (self w)) (rng w) (rng_pos w).

(** ** The terms of the computation as real functions *)

(** [torch.sum(torch.pow(param, 2))] as a number. *)
Definition squares (t : Tensor) : R :=
  fold_right Rplus 0 (map (fun v => v ^ 2) (data t)).

(** The sum the loop accumulates, from the parameter tensors. *)
Definition sum_of_squares_of (params : list Tensor) : R :=
  fold_left (fun r t => r + squares t) params 0.

(** The two terms of the regularisation as functions of the keep
    probability (lines 83 and 85-87). *)
Definition weights_reg_at (weight_regulariser sum_of_squares pv : R) : R :=
  weight_regulariser * sum_of_squares / (1 - pv).

Definition dropout_reg_at (dropout_regulariser : R) (numel : nat) (pv : R) : R :=
  (pv * ln pv + (1 - pv) * ln (1 - pv)) * (dropout_regulariser * INR numel).

(** The entropy term of line 85-86 as a function of the keep
    probability. *)
Definition neg_entropy (pv : R) : R := pv * ln pv + (1 - pv) * ln (1 - pv).

(** One element of the transformed tensor, as lines 113-125 compute it
    from the input element [xi] and the uniform draw [ui]. *)
Definition dropout_element (pv eps xi ui : R) : R :=
  xi * (1 - Torch.sigmoid_R
             ((ln (pv + eps) - ln (1 - pv + eps)
               + ln (ui + eps) - ln (1 - ui + eps)) / (1 / 10)))
  / (1 - pv).

(** ** The callers of the instance *)

(** [nn.Module.eval()]: the module leaves training mode. *)
Definition module_eval : M unit :=
  fun w => (set_self (with_training false (self w)) w, inr tt).

(** What an optimizer step or [load_state_dict] does to the parameter:
    its value is overwritten in place. *)
Definition set_p_logit (v : R) : M unit :=
  pl <- getattr p_logit ;;
  t <- load pl ;;
  store pl (mkTensor (dtype t) (shape t) [v]).

(** ** Predicates on tensors, states and computations *)

(** A tensor whose number of elements agrees with its shape. *)
Definition well_shaped (t : Tensor) : Prop :=
  length (data t) = Torch.numel t.

(** A tensor like [torch.empty(1)]: shape [[1]], one element. *)
Definition one_element (t : Tensor) : Prop :=
  shape t = [1%nat] /\ length (data t) = 1%nat.

(** The tensors [self.p_logit] and [self.p] refer to. *)
Definition p_logit_tensor (w : World) : Tensor :=
  lookup (heap w) (p_logit (self w)).

Definition p_tensor (w : World) : Tensor := lookup (heap w) (p (self w)).

(** The references of a call are live, the input has as many elements as
    its shape says, and [p_logit] and [p] are as [__init__] makes them. *)
Record ready (w : World) (x : loc) (layer : Layer) : Prop := mkReady {
  x_live : (x < length (heap w))%nat;
  p_logit_live : (p_logit (self w) < length (heap w))%nat;
  p_live : (p (self w) < length (heap w))%nat;
  parameters_live :
    Forall (fun l => (l < length (heap w))%nat) (parameters layer);
  x_well_shaped : well_shaped (lookup (heap w) x);
  p_logit_one : one_element (p_logit_tensor w);
  p_one : one_element (p_tensor w)
}.

(** Every element lies strictly between 0 and 1. *)
Definition in_unit_interval (t : Tensor) : Prop :=
  Forall (fun v => 0 < v < 1) (data t).

(** The name [sum_of_squares] holds the number [a]: as a Python number, or
    as a 0-dim tensor object allocated at or above the mark [b]. *)
Definition holds (b : nat) (h : list Tensor) (v : var) (a : R) : Prop :=
  match v with
  | Num r => r = a
  | Ref l => (b <= l < length h)%nat /\
             exists d, lookup h l = mkTensor d [] [a]
  end.

(** A name bound above the mark, or to a number. *)
Definition fresh (b : nat) (v : var) : Prop :=
  match v with Num _ => True | Ref l => (b <= l)%nat end.

(** The configuration of an instance: every attribute but the cached [p]
    and [regularisation]. *)
Definition same_config (s s' : ConcreteDropout) : Prop :=
  weight_regulariser s' = weight_regulariser s /\
  dropout_regulariser s' = dropout_regulariser s /\
  p_logit s' = p_logit s /\
  temperature s' = temperature s /\
  mc_dropout s' = mc_dropout s /\
  training s' = training s.

(** [w] is [w0] up to the effects allowed: the objects below the mark [b]
    hold what they held, the configuration and the generator's sequence
    are the same; with [keep_p] the attribute [p] is the same reference,
    with [keep_rng] no draw was made. *)
Definition preserved (keep_p keep_rng : bool) (b : nat) (w0 w : World) : Prop :=
  (b <= length (heap w))%nat /\
  (forall l, (l < b)%nat -> lookup (heap w) l = lookup (heap w0) l) /\
  same_config (self w0) (self w) /\
  rng w = rng w0 /\
  (keep_p = true -> p (self w) = p (self w0)) /\
  (keep_rng = true -> rng_pos w = rng_pos w0).

(** [c] keeps [preserved], whether it returns or raises, and a value it
    returns satisfies [Q]. *)
Definition safe {A} (keep_p keep_rng : bool) (b : nat) (w0 : World)
    (c : M A) (Q : A -> Prop) : Prop :=
  forall w, preserved keep_p keep_rng b w0 w ->
    preserved keep_p keep_rng b w0 (fst (c w)) /\
    (forall a, snd (c w) = inr a -> Q a).

(** Two instances with the same attributes, the temperature apart when
    [t] is set. *)
Definition same_attrs (t : bool) (s1 s2 : ConcreteDropout) : Prop :=
  weight_regulariser s1 = weight_regulariser s2 /\
  dropout_regulariser s1 = dropout_regulariser s2 /\
  p_logit s1 = p_logit s2 /\
  p s1 = p s2 /\
  mc_dropout s1 = mc_dropout s2 /\
  regularisation s1 = regularisation s2 /\
  training s1 = training s2 /\
  (t = false -> temperature s1 = temperature s2).

(** Two states with the same store and the same instance, the temperature
    apart when [t] is set and the random generator apart when [g] is. *)
Definition same_but (t g : bool) (w1 w2 : World) : Prop :=
  heap w1 = heap w2 /\
  same_attrs t (self w1) (self w2) /\
  (g = false -> rng w1 = rng w2 /\ rng_pos w1 = rng_pos w2).

(** [c] gives the same outcome on two such states and leaves two such
    states. *)
Definition respects {A} (t g : bool) (c : M A) : Prop :=
  forall w1 w2, same_but t g w1 w2 ->
    same_but t g (fst (c w1)) (fst (c w2)) /\ snd (c w1) = snd (c w2).

(** ** Example states *)

(** A float32 batch of two samples of two features at reference 0, one
    parameter tensor at 1, [p_logit] at 2 and [p] at 3. *)
Definition example_x : Tensor := mkTensor float32 [2%nat; 2%nat] [1; 2; 3; 4].

Definition example_weight : Tensor := mkTensor float32 [2%nat] [3; 4].

Definition example_self (training : bool) : ConcreteDropout :=
  mkConcreteDropout 1 1 2%nat 3%nat (1 / 10) false (Num 0) training.

Definition example_world (training : bool) : World :=
  mkWorld [example_x; example_weight;
           mkTensor float32 [1%nat] [0]; mkTensor float32 [1%nat] [1 / 2]]
    (example_self training) (fun _ => 1 / 2) 0%nat.

(** A layer with one parameter tensor that returns its input. *)
Definition example_layer : Layer := mkLayer [1%nat] (fun _ x => inr x).

(** An empty batch of two features at reference 0. *)
Definition empty_batch_world : World :=
  mkWorld [mkTensor float32 [0%nat; 2%nat] []; example_weight;
           mkTensor float32 [1%nat] [0]; mkTensor float32 [1%nat] [1 / 2]]
    (example_self false) (fun _ => 1 / 2) 0%nat.

(** A float16 input to an instance whose parameter is float32, in
    training mode. *)
Definition half_world : World :=
  mkWorld [mkTensor float16 [2%nat] [1; 2]; example_weight;
           mkTensor float32 [1%nat] [0]; mkTensor float32 [1%nat] [1 / 2]]
    (example_self true) (fun _ => 1 / 2) 0%nat.

(** The input and the layer's parameter before the instance is
    constructed; [__init__] overwrites the attributes. *)
Definition base_world : World :=
  mkWorld [example_x; example_weight] (example_self true) (fun _ => 1 / 2) 0%nat.

(** Construct with the default bounds ([p] is 0.1), let the parameter be
    trained to 0 ([sigmoid] 0.5), switch to inference, call [forward]. *)
Definition stale_scenario : M loc :=
  __init__ (1 / 1000000) (1 / 100000) (1 / 10) (1 / 10) (1 / 10) false ;;;
  set_p_logit 0 ;;;
  module_eval ;;;
  forward 0%nat example_layer.

(** The state the scenario reaches before the call of [forward]. *)
Definition stale_world : World :=
  mkWorld [example_x; example_weight;
           mkTensor float32 [1%nat] [0]; mkTensor float32 [1%nat] [1 / 10]]
    (mkConcreteDropout (1 / 1000000) (1 / 100000) 2%nat 3%nat (1 / 10) false
       (Num 0) false)
    (fun _ => 1 / 2) 1%nat.

(** ** Further views of the computation *)

(** The logit of lines 44-45. *)
Definition logit (q : R) : R := ln q - ln (1 - q).

(** The mask of lines 113-122 for one uniform draw [ui]. *)
Definition dropout_mask (pv eps ui : R) : R :=
  1 - Torch.sigmoid_R
        ((ln (pv + eps) - ln (1 - pv + eps)
          + ln (ui + eps) - ln (1 - ui + eps)) / (1 / 10)).

(** The number the attribute [regularisation] holds. *)
Definition regularisation_item (w : World) : R :=
  match regularisation (self w) with
  | Num r => r
  | Ref l => Torch.item (lookup (heap w) l)
  end.

(** A layer that never raises. *)
Definition total_layer (layer : Layer) : Prop :=
  forall ps t, exists r, fn layer ps t = inr r.

(** The two flags [forward] tests on line 74, set from outside. *)
Definition with_mode (tr mc : bool) (s : ConcreteDropout) : ConcreteDropout :=
  mkConcreteDropout (weight_regulariser s) (dropout_regulariser s)
    (p_logit s) (p s) (temperature s) mc (regularisation s) tr.

Definition set_mode (tr mc : bool) (w : World) : World :=
  set_self (with_mode tr mc (self w)) w.

(** [c] does not look at what the change [T] of the state changes: it
    does on [T w] what it does on [w]. *)
Definition commutes {A} (T : World -> World) (c : M A) : Prop :=
  forall w, c (T w) = (T (fst (c w)), snd (c w)).


(** A 0-dim float32 input at reference 0. *)
Definition scalar_world : World :=
  mkWorld [mkTensor float32 [] [5]; example_weight;
           mkTensor float32 [1%nat] [0]; mkTensor float32 [1%nat] [1 / 2]]
    (example_self true) (fun _ => 1 / 2) 0%nat.

(** ** Facts about the tensor fragment *)

Lemma shape_eqb_refl (s : list nat) : Torch.shape_eqb s s = true.
Proof.
  induction s as [|a s IH]; simpl; [reflexivity|].
  now rewrite Nat.eqb_refl, IH.
Qed.

Lemma shape_eqb_eq (s1 s2 : list nat) :
  Torch.shape_eqb s1 s2 = true <-> s1 = s2.
Proof.
  split; [|intros ->; apply shape_eqb_refl].
  revert s2; induction s1 as [|a s1 IH]; intros [|b s2]; simpl;
    try discriminate; [reflexivity|].
  intros H. apply andb_true_iff in H as [Hab Hs].
  apply Nat.eqb_eq in Hab. now rewrite Hab, (IH _ Hs).
Qed.

Lemma promote_types_idem (d : Dtype) : Torch.promote_types d d = d.
Proof. now destruct d. Qed.

Lemma map2_map_l {A A' B C} (f : A' -> B -> C) (g : A -> A') l1 l2 :
  Torch.map2 f (map g l1) l2 = Torch.map2 (fun a b => f (g a) b) l1 l2.
Proof.
  revert l2; induction l1 as [|a l1 IH]; intros [|b l2]; simpl; try reflexivity.
  now rewrite IH.
Qed.

Lemma map2_map_r {A B B' C} (f : A -> B' -> C) (g : B -> B') l1 l2 :
  Torch.map2 f l1 (map g l2) = Torch.map2 (fun a b => f a (g b)) l1 l2.
Proof.
  revert l2; induction l1 as [|a l1 IH]; intros [|b l2]; simpl; try reflexivity.
  now rewrite IH.
Qed.

Lemma map_map2 {A B C D} (g : C -> D) (f : A -> B -> C) l1 l2 :
  map g (Torch.map2 f l1 l2) = Torch.map2 (fun a b => g (f a b)) l1 l2.
Proof.
  revert l2; induction l1 as [|a l1 IH]; intros [|b l2]; simpl; try reflexivity.
  now rewrite IH.
Qed.

Lemma map2_diag {A B C} (f : B -> C -> A) (l1 : list B) (g : B -> C) :
  Torch.map2 f l1 (map g l1) = map (fun a => f a (g a)) l1.
Proof. induction l1 as [|a l1 IH]; simpl; [reflexivity|now rewrite IH]. Qed.

Lemma map2_ext {A B C} (f g : A -> B -> C) l1 l2 :
  (forall a b, f a b = g a b) -> Torch.map2 f l1 l2 = Torch.map2 g l1 l2.
Proof.
  intros H; revert l2; induction l1 as [|a l1 IH]; intros [|b l2]; simpl;
    try reflexivity.
  now rewrite H, IH.
Qed.

(** Broadcasting a [[1]]-shaped tensor against a tensor with dimensions. *)
Lemma binary_one_l (f : R -> R -> R) (da : Dtype) (v : R) (b : Tensor) :
  shape b <> [] -> well_shaped b ->
  Torch.binary f (mkTensor da [1%nat] [v]) b =
  inr (mkTensor (Torch.promote_types da (dtype b)) (shape b)
         (map (f v) (data b))).
Proof.
  intros Hne Hw. unfold Torch.binary, Torch.result_type; simpl.
  destruct b as [db sb xs]; simpl in *.
  destruct sb as [|n sb]; [congruence|].
  unfold well_shaped, Torch.numel in Hw; simpl in Hw.
  destruct n as [|[|n]]; destruct sb as [|m sb]; simpl in *; try reflexivity.
  destruct xs as [|x [|x' xs]]; simpl in *; try discriminate.
  reflexivity.
Qed.

Lemma binary_one_r (f : R -> R -> R) (db : Dtype) (v : R) (a : Tensor) :
  shape a <> [] -> well_shaped a ->
  Torch.binary f a (mkTensor db [1%nat] [v]) =
  inr (mkTensor (Torch.promote_types (dtype a) db) (shape a)
         (map (fun x => f x v) (data a))).
Proof.
  intros Hne Hw. unfold Torch.binary, Torch.result_type; simpl.
  destruct a as [da sa xs]; simpl in *.
  destruct sa as [|n sa]; [congruence|].
  unfold well_shaped, Torch.numel in Hw; simpl in Hw.
  destruct n as [|[|n]]; destruct sa as [|m sa]; simpl in *; try reflexivity.
  destruct xs as [|x [|x' xs]]; simpl in *; try discriminate.
  reflexivity.
Qed.

Lemma binary_same_shape (f : R -> R -> R) (a b : Tensor) :
  shape a = shape b -> shape a <> [] ->
  Torch.binary f a b =
  inr (mkTensor (Torch.promote_types (dtype a) (dtype b)) (shape a)
         (Torch.map2 f (data a) (data b))).
Proof.
  intros He Hne. unfold Torch.binary, Torch.result_type.
  rewrite <- He, shape_eqb_refl.
  destruct (shape a); [congruence|reflexivity].
Qed.

(** ** Facts about the store *)

Lemma lookup_old (h h' : list Tensor) (l : loc) :
  (l < length h)%nat -> lookup (h ++ h') l = lookup h l.
Proof. intros H. unfold lookup. now rewrite app_nth1. Qed.

Lemma lookup_new (h h' : list Tensor) (t : Tensor) :
  lookup (h ++ t :: h') (length h) = t.
Proof. unfold lookup. now rewrite nth_middle. Qed.

Lemma update_length (h : list Tensor) (l : loc) (t : Tensor) :
  length (update h l t) = length h.
Proof.
  revert l; induction h as [|a h IH]; intros [|l]; simpl; try reflexivity.
  now rewrite IH.
Qed.

Lemma lookup_update_eq (h : list Tensor) (l : loc) (t : Tensor) :
  (l < length h)%nat -> lookup (update h l t) l = t.
Proof.
  revert l; induction h as [|a h IH]; intros [|l] H; simpl in *; try lia.
  - reflexivity.
  - apply IH. lia.
Qed.

Lemma lookup_update_ne (h : list Tensor) (l l' : loc) (t : Tensor) :
  l <> l' -> lookup (update h l t) l' = lookup h l'.
Proof.
  revert l l'; induction h as [|a h IH]; intros [|l] [|l'] H; simpl;
    try reflexivity; try congruence.
  apply IH. congruence.
Qed.

Lemma update_snoc (h : list Tensor) (a t : Tensor) :
  update (h ++ [a]) (length h) t = h ++ [t].
Proof. induction h as [|b h IH]; simpl; [reflexivity|now rewrite IH]. Qed.

Lemma map2_length {A B C} (f : A -> B -> C) l1 l2 :
  length (Torch.map2 f l1 l2) = Nat.min (length l1) (length l2).
Proof.
  revert l2; induction l1 as [|a l1 IH]; intros [|b l2]; simpl; try reflexivity.
  now rewrite IH.
Qed.

Lemma well_shaped_pointwise (f : R -> R) (t : Tensor) :
  well_shaped t -> well_shaped (Torch.pointwise f t).
Proof. unfold well_shaped, Torch.numel; simpl. now rewrite length_map. Qed.

Arguments lookup : simpl never.

(** Reading the store after allocations: the new object is the last one,
    the older ones are where they were. *)
Ltac heap_simpl :=
  repeat first [ rewrite lookup_new
               | rewrite lookup_old by (rewrite ?length_app; simpl; lia) ].

(** Running a computation on a state. *)
Ltac run :=
  cbv [bind ret raise lift load store alloc getattr setattr setattr_p
       setattr_regularisation self_p draw rand_like read bind_name
       augmented call binop heap self rng rng_pos];
  cbn.

Ltac world_simpl :=
  unfold set_heap, set_self, set_rng_pos; cbn;
  rewrite <- ?app_assoc; cbn; rewrite ?length_app; cbn.

(** ** The dropout transform, run on a store *)

(** [_concrete_dropout] on an input with at least one dimension, for a
    [[1]]-shaped parameter: seven new objects, the first is the new [p]
    and the last the result. *)
Lemma concrete_dropout_run h s g n x dp lv :
  (x < length h)%nat -> (p_logit s < length h)%nat ->
  lookup h (p_logit s) = mkTensor dp [1%nat] [lv] ->
  shape (lookup h x) <> [] -> well_shaped (lookup h x) ->
  let xv := lookup h x in
  let pv := Torch.sigmoid_R lv in
  let eps := Torch.finfo_eps (dtype xv) in
  let us := map g (seq n (Torch.numel xv)) in
  exists ext,
    _concrete_dropout x (mkWorld h s g n) =
    (mkWorld (h ++ mkTensor dp [1%nat] [pv] :: ext ++
              [mkTensor (Torch.promote_types dp (dtype xv)) (shape xv)
                 (Torch.map2 (dropout_element pv eps) (data xv) us)])
       (with_p (length h) s) g (n + Torch.numel xv)%nat,
     inr (length h + 6)%nat)
    /\ length ext = 5%nat.
Proof.
  intros Hx Hp Hpl Hne Hw xv pv eps us.
  assert (Hu : well_shaped (mkTensor (dtype xv) (shape xv) us)).
  { unfold well_shaped, Torch.numel, us; simpl.
    now rewrite !length_map, length_seq. }
  unfold _concrete_dropout. cbn. rewrite Hpl. cbn. heap_simpl. cbn.
  rewrite promote_types_idem.
  fold xv; fold us; fold eps; fold pv.
  unfold Torch.add at 1.
  rewrite binary_one_l;
    [|exact Hne
     |unfold Torch.log, tensor_num; now repeat apply well_shaped_pointwise].
  cbn. unfold Torch.sub at 1.
  rewrite binary_same_shape; [|reflexivity|exact Hne].
  cbn. heap_simpl. cbn. unfold Torch.mul at 1.
  rewrite binary_same_shape; [|reflexivity|exact Hne].
  cbn. unfold Torch.div at 1, num_tensor, Torch.sigmoid, Torch.pointwise. cbn.
  rewrite binary_one_r; [|exact Hne|].
  2:{ unfold well_shaped, Torch.numel in *. cbn.
      rewrite map2_length, !length_map, map2_length, !length_map.
      cbn in Hu. unfold xv in *. rewrite Hu, Hw.
      unfold Torch.prod. now rewrite !Nat.min_id. }
  cbn. world_simpl. unfold ret.
  match goal with
  | |- exists _, (mkWorld (h ++ [_; ?b; ?c; ?d; ?e; ?f; ?o]) _ _ _, _) = _ /\ _ =>
      exists [b; c; d; e; f]; split; [|reflexivity]; cbn;
      replace o with
        (mkTensor (Torch.promote_types dp (dtype xv)) (shape xv)
           (Torch.map2 (dropout_element pv eps) (data xv) us));
      [reflexivity|]
  end.
  f_equal.
  - unfold xv. now destruct dp, (dtype (lookup h x)).
  - fold xv; fold pv.
    rewrite !map_map, map2_map_l, map2_map_r, map2_diag, map2_map_r, map_map2.
    apply map2_ext. intros a b.
    unfold dropout_element. reflexivity.
Qed.

(** ** The loop over the parameters *)

Lemma sum_squares_run params : forall h s g n b acc a,
  Forall (fun l => (l < b)%nat) params -> (b <= length h)%nat ->
  holds b h acc a ->
  exists h' acc',
    sum_squares params acc (mkWorld h s g n) = (mkWorld h' s g n, inr acc')
    /\ (length h <= length h')%nat
    /\ (forall l, (l < b)%nat -> lookup h' l = lookup h l)
    /\ holds b h' acc'
         (fold_left (fun r t => r + squares t) (map (lookup h) params) a).
Proof.
  induction params as [|param rest IH]; intros h s g n b acc a Hps Hb Hacc.
  - exists h, acc. cbn. repeat split; auto.
  - inversion Hps as [|? ? Hparam Hrest]; subst.
    assert (Hmap : forall h', (forall l, (l < b)%nat -> lookup h' l = lookup h l) ->
                   map (lookup h') rest = map (lookup h) rest).
    { intros h' Hh'. apply map_ext_in. intros l Hl. apply Hh'.
      rewrite Forall_forall in Hrest. now apply Hrest. }
    destruct acc as [r|l]; cbn in Hacc.
    + subst r.
      destruct (IH (h ++ [num_tensor Rplus a (Torch.sum (Torch.pow (lookup h param) 2))])
                   s g n b (Ref (length h)) (a + squares (lookup h param)))
        as (h' & acc' & Hrun & Hlen & Hframe & Hholds); auto.
      { rewrite length_app; simpl; lia. }
      { cbn. rewrite length_app; simpl. split; [lia|].
        eexists. now rewrite lookup_new. }
      exists h', acc'. cbn. world_simpl.
      split; [exact Hrun|]. repeat split.
      * rewrite length_app in Hlen; simpl in Hlen; lia.
      * intros l Hl. rewrite Hframe by exact Hl. apply lookup_old. lia.
      * rewrite Hmap in Hholds; [exact Hholds|].
        intros l Hl. apply lookup_old. lia.
    + destruct Hacc as (Hl & d & Ht).
      destruct (IH (update h l (mkTensor d [] [a + squares (lookup h param)]))
                   s g n b (Ref l) (a + squares (lookup h param)))
        as (h' & acc' & Hrun & Hlen & Hframe & Hholds); auto.
      { rewrite update_length; lia. }
      { cbn. rewrite update_length. split; [lia|].
        eexists. now rewrite lookup_update_eq by lia. }
      exists h', acc'. cbn. run. rewrite Ht. cbn. world_simpl.
      split; [exact Hrun|]. repeat split.
      * rewrite update_length in Hlen; lia.
      * intros l' Hl'. rewrite Hframe by exact Hl'. apply lookup_update_ne. lia.
      * rewrite Hmap in Hholds; [exact Hholds|].
        intros l' Hl'. apply lookup_update_ne. lia.
Qed.

(** ** The regularisation, run on a store *)

Lemma forward_unfold (x : loc) (layer : Layer) :
  forward x layer =
  (tr <- getattr training ;;
   mc <- getattr mc_dropout ;;
   output <- (if tr || mc
              then xd <- _concrete_dropout x ;; call layer xd
              else call layer x) ;;
   sum_of_squares <- sum_squares (parameters layer) (Num 0) ;;
   forward_rest x output sum_of_squares).
Proof. reflexivity. Qed.

Lemma forward_rest_run h s g n x output acc a b dq pv x0 :
  holds b h acc a -> (b <= length h)%nat ->
  (p s < length h)%nat -> (x < length h)%nat ->
  lookup h (p s) = mkTensor dq [1%nat] [pv] ->
  Torch.getitem0 (lookup h x) = inr x0 ->
  exists ext,
    forward_rest x output acc (mkWorld h s g n) =
    (mkWorld
       (h ++ ext ++
        [mkTensor dq [1%nat]
           [weights_reg_at (weight_regulariser s) a pv
            + dropout_reg_at (dropout_regulariser s) (Torch.numel x0) pv]])
       (with_regularisation (Ref (length h + 2)%nat) s) g n,
     inr output)
    /\ length ext = 2%nat.
Proof.
  intros Hacc Hb Hp Hx Hpv Hx0.
  unfold forward_rest. destruct acc as [r|l]; cbn in Hacc.
  - subst r. run.
    repeat progress (heap_simpl; rewrite ?Hpv, ?Hx0, ?update_snoc; cbn).
    world_simpl.
    rewrite !promote_types_idem.
    eexists [_; _]. split; reflexivity.
  - destruct Hacc as (Hl & d & Ht).
    run. rewrite Ht.
    repeat progress (heap_simpl; rewrite ?Hpv, ?Hx0, ?update_snoc; cbn).
    world_simpl.
    rewrite !promote_types_idem.
    eexists [_; _]. split; reflexivity.
Qed.

(** ** The whole of [forward], run on a store *)

Lemma bind_assoc {A B C} (c : M A) (k1 : A -> M B) (k2 : B -> M C) (w : World) :
  bind (bind c k1) k2 w = bind c (fun a => bind (k1 a) k2) w.
Proof. unfold bind. now destruct (c w) as [w' [e|a]]. Qed.

Lemma bind_returns {A B} (c : M A) (k : A -> M B) (w w' : World) (a : A) :
  c w = (w', inr a) -> bind c k w = k a w'.
Proof. intros H. unfold bind. now rewrite H. Qed.

Lemma lookup_offset (h ext : list Tensor) (k : nat) :
  lookup (h ++ ext) (length h + k)%nat = nth k ext Torch.empty1.
Proof.
  unfold lookup. rewrite app_nth2 by lia. f_equal. lia.
Qed.

(** From the call of the layer to the end of [forward]: the layer's result
    is the new object returned, and the regularisation is a new object
    computed from the current [p]. *)
Lemma call_and_regularise h s g n x xin layer r dq pv x0 :
  (x < length h)%nat -> (p s < length h)%nat ->
  Forall (fun l => (l < length h)%nat) (parameters layer) ->
  fn layer (map (lookup h) (parameters layer)) (lookup h xin) = inr r ->
  lookup h (p s) = mkTensor dq [1%nat] [pv] ->
  Torch.getitem0 (lookup h x) = inr x0 ->
  exists h' l,
    (output <- call layer xin ;;
     sum_of_squares <- sum_squares (parameters layer) (Num 0) ;;
     forward_rest x output sum_of_squares) (mkWorld h s g n) =
    (mkWorld h' (with_regularisation (Ref l) s) g n, inr (length h))
    /\ lookup h' (length h) = r
    /\ lookup h' l =
       mkTensor dq [1%nat]
         [weights_reg_at (weight_regulariser s)
            (sum_of_squares_of (map (lookup h) (parameters layer))) pv
          + dropout_reg_at (dropout_regulariser s) (Torch.numel x0) pv]
    /\ (length h < l < length h')%nat
    /\ (forall l', (l' < length h)%nat -> lookup h' l' = lookup h l').
Proof.
  intros Hx Hp Hps Hfn Hpv Hx0.
  destruct (sum_squares_run (parameters layer) (h ++ [r]) s g n
              (length (h ++ [r])) (Num 0) 0)
    as (h1 & acc & Hloop & Hlen & Hframe & Hacc); [| lia | reflexivity |].
  { eapply Forall_impl; [|exact Hps]. intros l Hl. cbn in Hl.
    rewrite length_app; simpl; lia. }
  rewrite length_app in Hlen, Hframe, Hacc; simpl in Hlen, Hframe, Hacc.
  assert (Hold : forall l', (l' < length h)%nat -> lookup h1 l' = lookup h l').
  { intros l' Hl'. rewrite Hframe by lia. now apply lookup_old. }
  destruct (forward_rest_run h1 s g n x (length h) acc _ _ dq pv x0 Hacc)
    as (ext & Hrest & Hext); try lia.
  { now rewrite Hold. }
  { now rewrite Hold. }
  destruct ext as [|e1 [|e2 [|e3 ext]]]; try discriminate.
  eexists _, _. split; [|split; [|split; [|split]]].
  - unfold bind at 1. unfold call. run. rewrite Hfn. cbn. world_simpl.
    unfold bind at 1. rewrite Hloop. exact Hrest.
  - rewrite lookup_old by lia. rewrite Hframe by lia. apply lookup_new.
  - cbn. rewrite (lookup_offset h1 [e1; e2; _] 2). cbn.
    do 3 f_equal. unfold sum_of_squares_of. do 2 f_equal.
    apply map_ext_in. intros l Hl. apply lookup_old.
    rewrite Forall_forall in Hps. now apply Hps.
  - rewrite length_app. simpl. lia.
  - intros l' Hl'. rewrite lookup_old by lia. now apply Hold.
Qed.

(** ** What a computation leaves untouched *)

Section Safe.
Variables (kp kg : bool) (b : nat) (w0 : World).

Lemma safe_ret {A} (a : A) (Q : A -> Prop) :
  Q a -> safe kp kg b w0 (ret a) Q.
Proof. intros HQ w Hw. split; [exact Hw|]. cbn. now intros ? [= <-]. Qed.

Lemma safe_raise {A} (e : Exception) (Q : A -> Prop) :
  safe kp kg b w0 (raise e) Q.
Proof. intros w Hw. split; [exact Hw|]. cbn. discriminate. Qed.

Lemma safe_lift {A} (r : Exception + A) :
  safe kp kg b w0 (lift r) (fun a => r = inr a).
Proof. intros w Hw. split; [exact Hw|]. cbn. auto. Qed.

Lemma safe_bind {A B} (c : M A) (k : A -> M B) (Q : A -> Prop) (Q' : B -> Prop) :
  safe kp kg b w0 c Q ->
  (forall a, Q a -> safe kp kg b w0 (k a) Q') ->
  safe kp kg b w0 (bind c k) Q'.
Proof.
  intros Hc Hk w Hw. unfold bind.
  destruct (Hc w Hw) as [Hw' HQ].
  destruct (c w) as [w' [e|a]]; cbn in *.
  - split; [exact Hw'|discriminate].
  - apply Hk; auto.
Qed.

Lemma safe_weaken {A} (c : M A) (Q Q' : A -> Prop) :
  safe kp kg b w0 c Q -> (forall a, Q a -> Q' a) -> safe kp kg b w0 c Q'.
Proof.
  intros Hc HQ w Hw. destruct (Hc w Hw) as [Hw' Ha]. split; auto.
Qed.

Lemma safe_load (l : loc) :
  safe kp kg b w0 (load l)
    (fun t => (l < b)%nat -> t = lookup (heap w0) l).
Proof.
  intros w Hw. split; [exact Hw|]. cbn. intros a [= <-] Hl.
  now apply Hw.
Qed.

Lemma safe_alloc (t : Tensor) :
  safe kp kg b w0 (alloc t) (fun l => (b <= l)%nat).
Proof.
  intros w (Hb & Hlk & Hc & Hg & Hp & Hn). split.
  - unfold alloc, preserved; cbn [fst heap self rng rng_pos set_heap].
    split; [rewrite length_app; simpl; lia|].
    split; [|now auto].
    intros l Hl. rewrite lookup_old by lia. now apply Hlk.
  - cbn. intros a [= <-]. exact Hb.
Qed.

Lemma safe_store (l : loc) (t : Tensor) :
  (b <= l)%nat -> safe kp kg b w0 (store l t) (fun _ => True).
Proof.
  intros Hl w (Hb & Hlk & Hc & Hg & Hp & Hn). split; [|auto].
  unfold store, preserved; cbn [fst heap self rng rng_pos set_heap].
  split; [now rewrite update_length|].
  split; [|now auto].
  intros l' Hl'. rewrite lookup_update_ne by lia. now apply Hlk.
Qed.

Lemma safe_getattr {A} (field : ConcreteDropout -> A) :
  safe kp kg b w0 (getattr field) (fun a => True).
Proof. intros w Hw. split; [exact Hw|auto]. Qed.

Lemma safe_setattr_regularisation (v : var) :
  safe kp kg b w0 (setattr_regularisation v) (fun _ => True).
Proof. intros w Hw. split; [exact Hw|auto]. Qed.

Lemma safe_self_p : safe kp kg b w0 self_p (fun _ => True).
Proof. intros w Hw. split; [exact Hw|auto]. Qed.

Lemma safe_read (v : var) : safe kp kg b w0 (read v) (fun _ => True).
Proof. intros w Hw. destruct v; (split; [exact Hw|auto]). Qed.

Lemma safe_bind_name (v : value) :
  safe kp kg b w0 (bind_name v) (fresh b).
Proof.
  destruct v as [r|t]; cbn.
  - now apply safe_ret.
  - eapply safe_bind; [apply safe_alloc|]. intros l Hl. now apply safe_ret.
Qed.

Lemma safe_augmented (f : R -> R -> R) (name : var) (rhs : value) :
  fresh b name -> safe kp kg b w0 (augmented f name rhs) (fresh b).
Proof.
  intros Hf. destruct name as [r|l]; cbn.
  - eapply safe_bind; [apply safe_lift|]. intros v _. apply safe_bind_name.
  - eapply safe_bind; [apply safe_load|]. intros t _.
    eapply safe_bind; [apply safe_lift|]. intros [r|r] _.
    + apply safe_raise.
    + destruct (Torch.shape_eqb (shape r) (shape t)).
      * eapply safe_bind; [now apply safe_store|]. intros _ _.
        now apply safe_ret.
      * apply safe_raise.
Qed.

Lemma safe_call (layer : Layer) (x : loc) :
  safe kp kg b w0 (call layer x) (fun l => (b <= l)%nat).
Proof.
  unfold call.
  eapply safe_bind with (Q := fun _ => True).
  { intros w Hw. split; [exact Hw|auto]. }
  intros ps _. eapply safe_bind; [apply safe_load|]. intros xv _.
  eapply safe_bind; [apply safe_lift|]. intros r _.
  apply safe_alloc.
Qed.

Lemma safe_sum_squares (params : list loc) : forall acc,
  fresh b acc -> safe kp kg b w0 (sum_squares params acc) (fresh b).
Proof.
  induction params as [|param rest IH]; intros acc Hacc; cbn.
  - now apply safe_ret.
  - eapply safe_bind; [apply safe_load|]. intros pv _.
    eapply safe_bind; [now apply safe_augmented|]. intros s Hs.
    now apply IH.
Qed.

(** If the part of [forward] after the loop returns, [x[0]] existed. *)
Lemma safe_forward_rest (x output : loc) (acc : var) :
  fresh b acc ->
  safe kp kg b w0 (forward_rest x output acc)
    (fun _ => (x < b)%nat ->
              exists x0, Torch.getitem0 (lookup (heap w0) x) = inr x0).
Proof.
  intros Hacc. unfold forward_rest.
  eapply safe_bind; [apply safe_getattr|]. intros wr _.
  eapply safe_bind; [apply safe_read|]. intros sv _.
  eapply safe_bind; [apply safe_lift|]. intros n _.
  eapply safe_bind; [apply safe_self_p|]. intros p1 _.
  eapply safe_bind; [apply safe_lift|]. intros q _.
  eapply safe_bind; [apply safe_bind_name|]. intros weights_reg _.
  eapply safe_bind; [apply safe_self_p|]. intros p2 _.
  eapply safe_bind; [apply safe_self_p|]. intros p3 _.
  eapply safe_bind; [apply safe_lift|]. intros d _.
  eapply safe_bind; [apply safe_alloc|]. intros dropout_reg Hd.
  eapply safe_bind; [apply safe_self_p|]. intros p4 _.
  eapply safe_bind; [apply safe_self_p|]. intros p5 _.
  eapply safe_bind; [apply safe_lift|]. intros e _.
  eapply safe_bind; [now apply safe_augmented|]. intros dropout_reg' Hd'.
  eapply safe_bind; [apply safe_getattr|]. intros dr _.
  eapply safe_bind; [apply safe_load|]. intros xv Hxv.
  eapply safe_bind; [apply safe_lift|]. intros x0 Hx0.
  eapply safe_bind; [now apply safe_augmented|]. intros dropout_reg'' _.
  eapply safe_bind; [apply safe_read|]. intros wv _.
  eapply safe_bind; [apply safe_read|]. intros dv _.
  eapply safe_bind; [apply safe_lift|]. intros s _.
  eapply safe_bind; [apply safe_bind_name|]. intros reg _.
  eapply safe_bind; [apply safe_setattr_regularisation|]. intros _ _.
  apply safe_ret. intros Hx. exists x0. now rewrite <- Hxv.
Qed.

(** From the layer's call to the end of [forward]. *)
Lemma safe_call_and_regularise (layer : Layer) (x xin : loc) :
  safe kp kg b w0
    (output <- call layer xin ;;
     sum_of_squares <- sum_squares (parameters layer) (Num 0) ;;
     forward_rest x output sum_of_squares)
    (fun _ => (x < b)%nat ->
              exists x0, Torch.getitem0 (lookup (heap w0) x) = inr x0).
Proof.
  eapply safe_bind; [apply safe_call|]. intros output _.
  eapply safe_bind; [now apply safe_sum_squares|]. intros acc Hacc.
  now apply safe_forward_rest.
Qed.
End Safe.

Lemma concrete_dropout_unfold (x : loc) :
  _concrete_dropout x =
  (xv <- load x ;;
   pl <- getattr p_logit ;;
   plv <- load pl ;;
   new_p <- alloc (Torch.sigmoid plv) ;;
   setattr_p new_p ;;;
   dropout_rest x (Torch.finfo_eps (dtype xv))).
Proof. reflexivity. Qed.

Lemma concrete_dropout_split (x : loc) (w : World) :
  _concrete_dropout x w =
  dropout_rest x (Torch.finfo_eps (dtype (lookup (heap w) x))) (after_set_p w).
Proof. reflexivity. Qed.

Lemma forward_with_dropout (x : loc) (layer : Layer) (w : World) :
  training (self w) || mc_dropout (self w) = true ->
  forward x layer w =
  (xd <- dropout_rest x (Torch.finfo_eps (dtype (lookup (heap w) x))) ;;
   output <- call layer xd ;;
   sum_of_squares <- sum_squares (parameters layer) (Num 0) ;;
   forward_rest x output sum_of_squares) (after_set_p w).
Proof.
  intros H. rewrite forward_unfold.
  unfold bind at 1 2. unfold getattr. cbn [fst snd]. rewrite H.
  rewrite bind_assoc. unfold bind at 1. rewrite concrete_dropout_split.
  reflexivity.
Qed.

Lemma forward_without_dropout (x : loc) (layer : Layer) (w : World) :
  training (self w) = false -> mc_dropout (self w) = false ->
  forward x layer w =
  (output <- call layer x ;;
   sum_of_squares <- sum_squares (parameters layer) (Num 0) ;;
   forward_rest x output sum_of_squares) w.
Proof.
  intros Ht Hm. rewrite forward_unfold.
  unfold bind at 1 2. unfold getattr. cbn [fst snd]. now rewrite Ht, Hm.
Qed.

Lemma safe_setattr_p (kg : bool) (b : nat) (w0 : World) (l : loc) :
  safe false kg b w0 (setattr_p l) (fun _ => True).
Proof.
  intros w (Hb & Hlk & Hc & Hg & Hp & Hn). split; [|auto].
  unfold setattr_p, preserved; cbn. repeat split; auto; try apply Hc.
  discriminate.
Qed.

Lemma safe_rand_like (kp : bool) (b : nat) (w0 : World) (t : Tensor) :
  safe kp false b w0 (rand_like t) (fun _ => True).
Proof.
  intros w (Hb & Hlk & Hc & Hg & Hp & Hn). split; [|auto].
  unfold rand_like, preserved; cbn. repeat split; auto; try apply Hc.
  discriminate.
Qed.

Lemma safe_dropout_rest (kp : bool) (b : nat) (w0 : World) (x : loc) (eps : R) :
  safe kp false b w0 (dropout_rest x eps) (fun l => (b <= l)%nat).
Proof.
  unfold dropout_rest.
  eapply safe_bind; [apply safe_load|]. intros xv _.
  eapply safe_bind; [apply safe_rand_like|]. intros u _.
  eapply safe_bind; [apply safe_alloc|]. intros u_noise _.
  eapply safe_bind; [apply safe_self_p|]. intros p1 _.
  eapply safe_bind; [apply safe_self_p|]. intros p2 _.
  eapply safe_bind; [apply safe_lift|]. intros d1 _.
  eapply safe_bind; [apply safe_load|]. intros u1 _.
  eapply safe_bind; [apply safe_lift|]. intros d2 _.
  eapply safe_bind; [apply safe_load|]. intros u2 _.
  eapply safe_bind; [apply safe_lift|]. intros d3 _.
  eapply safe_bind; [apply safe_alloc|]. intros drop_prob _.
  eapply safe_bind; [apply safe_load|]. intros d4 _.
  eapply safe_bind; [apply safe_alloc|]. intros drop_prob' _.
  eapply safe_bind; [apply safe_load|]. intros d5 _.
  eapply safe_bind; [apply safe_alloc|]. intros mask _.
  eapply safe_bind; [apply safe_self_p|]. intros p3 _.
  eapply safe_bind; [apply safe_alloc|]. intros retain _.
  eapply safe_bind; [apply safe_load|]. intros xv' _.
  eapply safe_bind; [apply safe_load|]. intros m _.
  eapply safe_bind; [apply safe_lift|]. intros xm _.
  eapply safe_bind; [apply safe_load|]. intros r _.
  eapply safe_bind; [apply safe_lift|]. intros q _.
  eapply safe_bind; [apply safe_alloc|]. intros out Hout.
  now apply safe_ret.
Qed.

Lemma safe_concrete_dropout (b : nat) (w0 : World) (x : loc) :
  safe false false b w0 (_concrete_dropout x) (fun l => (b <= l)%nat).
Proof.
  rewrite concrete_dropout_unfold.
  eapply safe_bind; [apply safe_load|]. intros xv _.
  eapply safe_bind; [apply safe_getattr|]. intros pl _.
  eapply safe_bind; [apply safe_load|]. intros plv _.
  eapply safe_bind; [apply safe_alloc|]. intros new_p _.
  eapply safe_bind; [apply safe_setattr_p|]. intros _ _.
  apply safe_dropout_rest.
Qed.

(** [forward] as a whole: it writes no object that existed before the
    call and no attribute of the configuration, and if it returns then
    [x[0]] existed. *)
Lemma safe_forward (b : nat) (w0 : World) (x : loc) (layer : Layer) :
  safe false false b w0 (forward x layer)
    (fun _ => (x < b)%nat ->
              exists x0, Torch.getitem0 (lookup (heap w0) x) = inr x0).
Proof.
  rewrite forward_unfold.
  eapply safe_bind; [apply safe_getattr|]. intros tr _.
  eapply safe_bind; [apply safe_getattr|]. intros mc _.
  eapply safe_bind with (Q := fun _ => True).
  { destruct (tr || mc).
    - eapply safe_bind; [apply safe_concrete_dropout|]. intros xd _.
      eapply safe_weaken; [apply safe_call|auto].
    - eapply safe_weaken; [apply safe_call|auto]. }
  intros output _.
  eapply safe_bind; [now apply safe_sum_squares|]. intros acc Hacc.
  now apply safe_forward_rest.
Qed.

Lemma preserved_refl (kp kg : bool) (w : World) :
  preserved kp kg (length (heap w)) w w.
Proof. unfold preserved, same_config. repeat split; auto. Qed.

(** ** What a computation does not depend on *)

Section Respects.
Variables (t g : bool).

Lemma respects_ret {A} (a : A) : respects t g (ret a).
Proof. intros w1 w2 H. now split. Qed.

Lemma respects_raise {A} (e : Exception) : respects t g (@raise A e).
Proof. intros w1 w2 H. now split. Qed.

Lemma respects_lift {A} (r : Exception + A) : respects t g (lift r).
Proof. intros w1 w2 H. now split. Qed.

Lemma respects_bind {A B} (c : M A) (k : A -> M B) :
  respects t g c -> (forall a, respects t g (k a)) ->
  respects t g (bind c k).
Proof.
  intros Hc Hk w1 w2 H. unfold bind.
  destruct (Hc w1 w2 H) as [Hw Hr].
  destruct (c w1) as [w1' [e1|a1]], (c w2) as [w2' [e2|a2]];
    cbn in *; try discriminate.
  - injection Hr as <-. now split.
  - injection Hr as <-. now apply Hk.
Qed.

Lemma respects_load (l : loc) : respects t g (load l).
Proof.
  intros w1 w2 H. split; [exact H|]. cbn. destruct H as [-> _]. reflexivity.
Qed.

Lemma respects_alloc (v : Tensor) : respects t g (alloc v).
Proof.
  intros w1 w2 (Hh & Hs & Hg). unfold alloc, same_but; cbn.
  rewrite Hh. auto.
Qed.

Lemma respects_store (l : loc) (v : Tensor) : respects t g (store l v).
Proof.
  intros w1 w2 (Hh & Hs & Hg). unfold store, same_but; cbn.
  rewrite Hh. auto.
Qed.

Lemma respects_getattr {A} (field : ConcreteDropout -> A) :
  (forall s1 s2, same_attrs t s1 s2 -> field s1 = field s2) ->
  respects t g (getattr field).
Proof.
  intros Hf w1 w2 H. split; [exact H|]. cbn. f_equal. apply Hf, H.
Qed.

Lemma respects_setattr_p (l : loc) : respects t g (setattr_p l).
Proof.
  intros w1 w2 (Hh & Hs & Hg). unfold setattr_p, same_but, same_attrs in *.
  cbn. intuition.
Qed.

Lemma respects_setattr_regularisation (v : var) :
  respects t g (setattr_regularisation v).
Proof.
  intros w1 w2 (Hh & Hs & Hg).
  unfold setattr_regularisation, same_but, same_attrs in *.
  cbn. intuition.
Qed.

Lemma respects_self_p : respects t g self_p.
Proof.
  apply respects_bind; [|intros l; apply respects_load].
  apply respects_getattr. intros s1 s2 H. apply H.
Qed.

Lemma respects_read (v : var) : respects t g (read v).
Proof.
  destruct v; cbn; [apply respects_ret|].
  apply respects_bind; [apply respects_load|]. intros; apply respects_ret.
Qed.

Lemma respects_bind_name (v : value) : respects t g (bind_name v).
Proof.
  destruct v; cbn; [apply respects_ret|].
  apply respects_bind; [apply respects_alloc|]. intros; apply respects_ret.
Qed.

Lemma respects_augmented (f : R -> R -> R) (name : var) (rhs : value) :
  respects t g (augmented f name rhs).
Proof.
  destruct name as [r|l]; cbn.
  - apply respects_bind; [apply respects_lift|]. intros; apply respects_bind_name.
  - apply respects_bind; [apply respects_load|]. intros v.
    apply respects_bind; [apply respects_lift|]. intros [r|r].
    + apply respects_raise.
    + destruct (Torch.shape_eqb (shape r) (shape v)).
      * apply respects_bind; [apply respects_store|].
        intros; apply respects_ret.
      * apply respects_raise.
Qed.

Lemma respects_call (layer : Layer) (x : loc) : respects t g (call layer x).
Proof.
  unfold call. apply respects_bind.
  { intros w1 w2 H. split; [exact H|]. cbn. destruct H as [-> _]. reflexivity. }
  intros ps. apply respects_bind; [apply respects_load|]. intros xv.
  apply respects_bind; [apply respects_lift|]. intros r.
  apply respects_alloc.
Qed.

Lemma respects_sum_squares (params : list loc) :
  forall acc, respects t g (sum_squares params acc).
Proof.
  induction params as [|param rest IH]; intros acc; cbn.
  - apply respects_ret.
  - apply respects_bind; [apply respects_load|]. intros pv.
    apply respects_bind; [apply respects_augmented|]. exact IH.
Qed.

Lemma respects_forward_rest (x output : loc) (acc : var) :
  respects t g (forward_rest x output acc).
Proof.
  unfold forward_rest.
  repeat first
    [ apply respects_ret
    | apply respects_bind;
      [ first [ apply respects_self_p | apply respects_lift
              | apply respects_read | apply respects_bind_name
              | apply respects_alloc | apply respects_load
              | apply respects_augmented
              | apply respects_setattr_regularisation
              | apply respects_getattr; intros s1 s2 H; apply H ]
      | intros ? ] ].
Qed.

Lemma respects_call_and_regularise (layer : Layer) (x xin : loc) :
  respects t g
    (output <- call layer xin ;;
     sum_of_squares <- sum_squares (parameters layer) (Num 0) ;;
     forward_rest x output sum_of_squares).
Proof.
  apply respects_bind; [apply respects_call|]. intros output.
  apply respects_bind; [apply respects_sum_squares|]. intros acc.
  apply respects_forward_rest.
Qed.
End Respects.

Lemma respects_rand_like (t : bool) (v : Tensor) : respects t false (rand_like v).
Proof.
  intros w1 w2 (Hh & Hs & Hg). destruct (Hg eq_refl) as [Hr Hn].
  unfold rand_like, same_but; cbn. rewrite Hr, Hn. auto.
Qed.

Lemma respects_dropout_rest (t : bool) (x : loc) (eps : R) :
  respects t false (dropout_rest x eps).
Proof.
  unfold dropout_rest.
  repeat first
    [ apply respects_ret
    | apply respects_bind;
      [ first [ apply respects_self_p | apply respects_lift
              | apply respects_alloc | apply respects_load
              | apply respects_rand_like ]
      | intros ? ] ].
Qed.

Lemma respects_concrete_dropout (t : bool) (x : loc) :
  respects t false (_concrete_dropout x).
Proof.
  rewrite concrete_dropout_unfold.
  apply respects_bind; [apply respects_load|]. intros xv.
  apply respects_bind; [apply respects_getattr; intros s1 s2 H; apply H|].
  intros pl.
  apply respects_bind; [apply respects_load|]. intros plv.
  apply respects_bind; [apply respects_alloc|]. intros new_p.
  apply respects_bind; [apply respects_setattr_p|]. intros _.
  apply respects_dropout_rest.
Qed.

(** [forward] never reads the attribute [temperature]. *)
Lemma respects_forward (t : bool) (x : loc) (layer : Layer) :
  respects t false (forward x layer).
Proof.
  rewrite forward_unfold.
  apply respects_bind; [apply respects_getattr; intros s1 s2 H; apply H|].
  intros tr.
  apply respects_bind; [apply respects_getattr; intros s1 s2 H; apply H|].
  intros mc.
  apply respects_bind.
  { destruct (tr || mc); [|apply respects_call].
    apply respects_bind; [apply respects_concrete_dropout|].
    intros xd. apply respects_call. }
  intros output.
  apply respects_bind; [apply respects_sum_squares|]. intros acc.
  apply respects_forward_rest.
Qed.

(** ** The sigmoid and the entropy term, as real functions *)

Lemma sigmoid_R_range (v : R) : 0 < Torch.sigmoid_R v < 1.
Proof.
  unfold Torch.sigmoid_R. pose proof (exp_pos (- v)) as He.
  split.
  - apply Rdiv_lt_0_compat; lra.
  - apply Rmult_lt_reg_r with (1 + exp (- v)); [lra|].
    unfold Rdiv. rewrite Rmult_assoc, Rinv_l by lra. lra.
Qed.

(** The logit of a probability is undone by the sigmoid. *)
Lemma sigmoid_R_logit (q : R) :
  0 < q < 1 -> Torch.sigmoid_R (ln q - ln (1 - q)) = q.
Proof.
  intros Hq. unfold Torch.sigmoid_R.
  replace (- (ln q - ln (1 - q))) with (ln (1 - q) - ln q) by ring.
  unfold Rminus at 1. rewrite exp_plus, exp_Ropp, !exp_ln by lra.
  field. lra.
Qed.

Lemma sigmoid_R_0 : Torch.sigmoid_R 0 = 1 / 2.
Proof. unfold Torch.sigmoid_R. rewrite Ropp_0, exp_0. lra. Qed.

Lemma ln_le_minus_1 (x : R) : 0 < x -> ln x <= x - 1.
Proof.
  intros Hx. destruct (Req_dec x 1) as [->|Hne].
  - rewrite ln_1. lra.
  - left. apply exp_lt_inv. rewrite exp_ln by exact Hx.
    pose proof (exp_ineq1 (x - 1)) as H.
    assert (x - 1 <> 0) by lra. specialize (H H0). lra.
Qed.

Lemma ln_lt_minus_1 (x : R) : 0 < x -> x <> 1 -> ln x < x - 1.
Proof.
  intros Hx Hne. apply exp_lt_inv. rewrite exp_ln by exact Hx.
  pose proof (exp_ineq1 (x - 1)) as H.
  assert (H0 : x - 1 <> 0) by lra. specialize (H H0). lra.
Qed.

Lemma ln_ge_1_minus_inv (x : R) : 0 < x -> 1 - / x <= ln x.
Proof.
  intros Hx. assert (Hi : 0 < / x) by now apply Rinv_0_lt_compat.
  pose proof (ln_le_minus_1 (/ x) Hi) as H.
  rewrite ln_Rinv in H by exact Hx. lra.
Qed.

Lemma dropout_reg_at_entropy (dr : R) (n : nat) (pv : R) :
  dropout_reg_at dr n pv = neg_entropy pv * (dr * INR n).
Proof. reflexivity. Qed.

Lemma neg_entropy_half : neg_entropy (1 / 2) = - ln 2.
Proof.
  unfold neg_entropy. replace (1 - 1 / 2) with (1 / 2) by lra.
  replace (1 / 2) with (/ 2) by lra. rewrite ln_Rinv by lra. lra.
Qed.

Lemma neg_entropy_min (pv : R) :
  0 < pv < 1 -> neg_entropy (1 / 2) <= neg_entropy pv.
Proof.
  intros Hp. rewrite neg_entropy_half. unfold neg_entropy.
  assert (H1 : ln (/ (2 * pv)) <= / (2 * pv) - 1).
  { apply ln_le_minus_1. apply Rinv_0_lt_compat. lra. }
  assert (H2 : ln (/ (2 * (1 - pv))) <= / (2 * (1 - pv)) - 1).
  { apply ln_le_minus_1. apply Rinv_0_lt_compat. lra. }
  rewrite ln_Rinv, ln_mult in H1, H2 by lra.
  apply Rmult_le_compat_l with (r := pv) in H1; [|lra].
  apply Rmult_le_compat_l with (r := 1 - pv) in H2; [|lra].
  replace (pv * (/ (2 * pv) - 1)) with (1 / 2 - pv) in H1 by (field; lra).
  replace ((1 - pv) * (/ (2 * (1 - pv)) - 1)) with (1 / 2 - (1 - pv)) in H2
    by (field; lra).
  lra.
Qed.

Lemma neg_entropy_min_strict (pv : R) :
  0 < pv < 1 -> pv <> 1 / 2 -> neg_entropy (1 / 2) < neg_entropy pv.
Proof.
  intros Hp Hne. rewrite neg_entropy_half. unfold neg_entropy.
  assert (H1 : ln (/ (2 * pv)) < / (2 * pv) - 1).
  { apply ln_lt_minus_1; [apply Rinv_0_lt_compat; lra|].
    intros He. apply Hne.
    assert (H2p : 2 * pv = 1).
    { rewrite <- (Rinv_inv (2 * pv)), He. apply Rinv_1. }
    lra. }
  assert (H2 : ln (/ (2 * (1 - pv))) <= / (2 * (1 - pv)) - 1).
  { apply ln_le_minus_1. apply Rinv_0_lt_compat. lra. }
  rewrite ln_Rinv, ln_mult in H1, H2 by lra.
  apply Rmult_lt_compat_l with (r := pv) in H1; [|lra].
  apply Rmult_le_compat_l with (r := 1 - pv) in H2; [|lra].
  replace (pv * (/ (2 * pv) - 1)) with (1 / 2 - pv) in H1 by (field; lra).
  replace ((1 - pv) * (/ (2 * (1 - pv)) - 1)) with (1 / 2 - (1 - pv)) in H2
    by (field; lra).
  lra.
Qed.

Lemma neg_entropy_sym (pv : R) : neg_entropy (1 - pv) = neg_entropy pv.
Proof.
  unfold neg_entropy. replace (1 - (1 - pv)) with pv by ring. ring.
Qed.

Lemma neg_entropy_nonpos (pv : R) : 0 < pv < 1 -> neg_entropy pv <= 0.
Proof.
  intros Hp. unfold neg_entropy.
  assert (ln pv < 0) by (rewrite <- ln_1; apply ln_increasing; lra).
  assert (ln (1 - pv) < 0) by (rewrite <- ln_1; apply ln_increasing; lra).
  nra.
Qed.

(** Near 0 the entropy term is of the order of [sqrt pv]. *)
Lemma neg_entropy_bound (pv : R) :
  0 < pv < 1 -> - (3 * sqrt pv) <= neg_entropy pv.
Proof.
  intros Hp. unfold neg_entropy.
  set (s := sqrt pv).
  assert (Hs : 0 < s) by (apply sqrt_lt_R0; lra).
  assert (Hss : s * s = pv) by (apply sqrt_sqrt; lra).
  assert (Hs1 : s < 1) by nra.
  assert (Hln : ln pv = 2 * ln s).
  { rewrite <- Hss, ln_mult by lra. ring. }
  pose proof (ln_ge_1_minus_inv s Hs) as H1.
  assert (H2 : (1 - pv) * (1 - / (1 - pv)) <= (1 - pv) * ln (1 - pv)).
  { apply Rmult_le_compat_l; [lra|]. apply ln_ge_1_minus_inv. lra. }
  replace ((1 - pv) * (1 - / (1 - pv))) with (- pv) in H2 by (field; lra).
  assert (H3 : pv * (2 * (1 - / s)) <= pv * ln pv).
  { rewrite Hln. apply Rmult_le_compat_l; lra. }
  replace (pv * (2 * (1 - / s))) with (2 * pv - 2 * s) in H3.
  2:{ rewrite <- Hss. field. lra. }
  nra.
Qed.

(** The entropy term tends to 0 at both ends of the interval. *)
Lemma neg_entropy_limit_0 (eps : R) :
  0 < eps ->
  exists delta, 0 < delta /\
    forall pv, 0 < pv < delta -> Rabs (neg_entropy pv) < eps.
Proof.
  intros He. exists (Rmin 1 ((eps / 3) ^ 2)). split.
  - apply Rmin_glb_lt; [lra|]. apply pow_lt. lra.
  - intros pv [Hp0 Hpd].
    assert (Hp1 : pv < 1) by (eapply Rlt_le_trans; [exact Hpd|apply Rmin_l]).
    assert (Hp2 : pv < (eps / 3) ^ 2)
      by (eapply Rlt_le_trans; [exact Hpd|apply Rmin_r]).
    assert (Hsq : sqrt pv < eps / 3).
    { rewrite <- (sqrt_pow2 (eps / 3)) by lra.
      apply sqrt_lt_1; [lra|apply pow_le; lra|exact Hp2]. }
    pose proof (neg_entropy_bound pv (conj Hp0 Hp1)).
    pose proof (neg_entropy_nonpos pv (conj Hp0 Hp1)).
    apply Rabs_def1; lra.
Qed.

Lemma neg_entropy_limit_1 (eps : R) :
  0 < eps ->
  exists delta, 0 < delta /\
    forall pv, 1 - delta < pv < 1 -> Rabs (neg_entropy pv) < eps.
Proof.
  intros He. destruct (neg_entropy_limit_0 eps He) as (delta & Hd & Hlim).
  exists delta. split; [exact Hd|]. intros pv Hp.
  rewrite <- neg_entropy_sym. apply Hlim. lra.
Qed.

(** ** States in which [forward] is called *)

Lemma one_element_eq (t : Tensor) :
  one_element t -> t = mkTensor (dtype t) [1%nat] [Torch.item t].
Proof.
  intros [Hs Hd]. destruct t as [d s xs]; cbn in *. subst s.
  destruct xs as [|v [|v' xs]]; try discriminate. reflexivity.
Qed.

Lemma getitem0_shape (t x0 : Tensor) :
  Torch.getitem0 t = inr x0 -> shape t <> [].
Proof. unfold Torch.getitem0. destruct (shape t); [discriminate|congruence]. Qed.

(** [forward] with dropout, when the layer returns and [x] has a first
    sample. *)
Lemma forward_run_dropout (w : World) (x : loc) (layer : Layer) (x0 r : Tensor) :
  ready w x layer ->
  training (self w) || mc_dropout (self w) = true ->
  let xv := lookup (heap w) x in
  let dp := dtype (p_logit_tensor w) in
  let pv := Torch.sigmoid_R (Torch.item (p_logit_tensor w)) in
  let us := map (rng w) (seq (rng_pos w) (Torch.numel xv)) in
  let params := map (lookup (heap w)) (parameters layer) in
  Torch.getitem0 xv = inr x0 ->
  fn layer params
    (mkTensor (Torch.promote_types dp (dtype xv)) (shape xv)
       (Torch.map2 (dropout_element pv (Torch.finfo_eps (dtype xv)))
          (data xv) us)) = inr r ->
  exists w' out l,
    forward x layer w = (w', inr out)
    /\ lookup (heap w') out = r
    /\ regularisation (self w') = Ref l
    /\ lookup (heap w') l =
       mkTensor dp [1%nat]
         [weights_reg_at (weight_regulariser (self w))
            (sum_of_squares_of params) pv
          + dropout_reg_at (dropout_regulariser (self w)) (Torch.numel x0) pv]
    /\ p_tensor w' = mkTensor dp [1%nat] [pv]
    /\ rng_pos w' = (rng_pos w + Torch.numel xv)%nat
    /\ (forall l', (l' < length (heap w))%nat ->
                   lookup (heap w') l' = lookup (heap w) l').
Proof.
  intros [Hx Hpl Hp Hps Hxw Hpl1 Hp1] Hmode xv dp pv us params Hx0 Hfn.
  destruct w as [h s g n]; cbn [heap self rng rng_pos] in *.
  unfold p_logit_tensor in *; cbn [heap self] in *.
  apply one_element_eq in Hpl1.
  destruct (concrete_dropout_run h s g n x _ _ Hx Hpl Hpl1
              (getitem0_shape _ _ Hx0) Hxw) as (ext & Hrun & Hext).
  fold xv dp pv us in Hrun.
  set (dropped := mkTensor _ _ _) in Hfn, Hrun.
  set (h1 := h ++ mkTensor dp [1%nat] [pv] :: ext ++ [dropped]) in Hrun.
  assert (Hlen : length h1 = (length h + 7)%nat).
  { unfold h1. rewrite length_app. cbn. rewrite length_app, Hext. cbn. lia. }
  assert (Hold : forall l', (l' < length h)%nat -> lookup h1 l' = lookup h l').
  { intros l' Hl'. unfold h1. now apply lookup_old. }
  destruct (call_and_regularise h1 (with_p (length h) s) g
              (n + Torch.numel xv)%nat x (length h + 6)%nat layer r dp pv x0)
    as (h' & l & Hrest & Hout & Hreg & Hl & Hframe).
  - lia.
  - cbn. lia.
  - eapply Forall_impl; [|exact Hps]. cbn. intros; lia.
  - replace (map (lookup h1) (parameters layer)) with params.
    2:{ unfold params. apply map_ext_in. intros l' Hl'. symmetry. apply Hold.
        rewrite Forall_forall in Hps. now apply Hps. }
    replace (lookup h1 (length h + 6)%nat) with dropped; [exact Hfn|].
    unfold h1. rewrite lookup_offset.
    destruct ext as [|e1 [|e2 [|e3 [|e4 [|e5 [|e6 ext]]]]]]; try discriminate.
    reflexivity.
  - cbn. unfold h1. apply lookup_new.
  - now rewrite Hold.
  - exists (mkWorld h' (with_regularisation (Ref l) (with_p (length h) s)) g
              (n + Torch.numel xv)%nat), (length h1), l.
    split; [|split; [|split; [|split; [|split; [|split]]]]].
    + rewrite forward_unfold. unfold bind at 1 2. unfold getattr.
      cbn [fst snd self]. rewrite Hmode. rewrite bind_assoc.
      rewrite (bind_returns _ _ _ _ _ Hrun). exact Hrest.
    + exact Hout.
    + reflexivity.
    + cbn [heap self weight_regulariser dropout_regulariser with_p
           with_regularisation] in *.
      rewrite Hreg. do 3 f_equal. unfold params. do 2 f_equal.
      apply map_ext_in. intros l' Hl'. apply Hold.
      rewrite Forall_forall in Hps. now apply Hps.
    + unfold p_tensor. cbn. rewrite Hframe by lia. unfold h1. apply lookup_new.
    + reflexivity.
    + cbn. intros l' Hl'. rewrite Hframe by lia. now apply Hold.
Qed.

(** [forward] without dropout, when the layer returns and [x] has a first
    sample. *)
Lemma forward_run_bypass (w : World) (x : loc) (layer : Layer) (x0 r : Tensor) :
  ready w x layer ->
  training (self w) = false -> mc_dropout (self w) = false ->
  let params := map (lookup (heap w)) (parameters layer) in
  let pv := Torch.item (p_tensor w) in
  Torch.getitem0 (lookup (heap w) x) = inr x0 ->
  fn layer params (lookup (heap w) x) = inr r ->
  exists w' out l,
    forward x layer w = (w', inr out)
    /\ lookup (heap w') out = r
    /\ self w' = with_regularisation (Ref l) (self w)
    /\ lookup (heap w') l =
       mkTensor (dtype (p_tensor w)) [1%nat]
         [weights_reg_at (weight_regulariser (self w))
            (sum_of_squares_of params) pv
          + dropout_reg_at (dropout_regulariser (self w)) (Torch.numel x0) pv]
    /\ rng_pos w' = rng_pos w
    /\ (length (heap w) < l < length (heap w'))%nat
    /\ (forall l', (l' < length (heap w))%nat ->
                   lookup (heap w') l' = lookup (heap w) l').
Proof.
  intros [Hx Hpl Hp Hps Hxw Hpl1 Hp1] Ht Hm params pv Hx0 Hfn.
  destruct w as [h s g n]; cbn [heap self rng rng_pos] in *.
  unfold p_tensor in *; cbn [heap self] in *.
  apply one_element_eq in Hp1.
  destruct (call_and_regularise h s g n x x layer r _ _ x0 Hx Hp Hps Hfn Hp1 Hx0)
    as (h' & l & Hrest & Hout & Hreg & Hl & Hframe).
  exists (mkWorld h' (with_regularisation (Ref l) s) g n), (length h), l.
  cbn [heap self rng rng_pos].
  split; [|split; [|split; [|split; [|split; [|split]]]]];
    auto; try lia.
  rewrite forward_without_dropout by assumption. exact Hrest.
Qed.

(** When the layer raises, [forward] raises the same exception. *)
Lemma forward_bypass_raises (w : World) (x : loc) (layer : Layer) (e : Exception) :
  training (self w) = false -> mc_dropout (self w) = false ->
  fn layer (map (lookup (heap w)) (parameters layer)) (lookup (heap w) x)
  = inl e ->
  forward x layer w = (w, inl e).
Proof.
  intros Ht Hm Hfn. rewrite forward_without_dropout by assumption.
  destruct w as [h s g n]. unfold bind at 1. unfold call. run.
  cbn in Hfn. now rewrite Hfn.
Qed.

(** ** The example states are ready *)

Lemma example_ready (training : bool) :
  ready (example_world training) 0%nat example_layer.
Proof.
  constructor; cbn; try lia.
  - repeat constructor.
  - reflexivity.
  - split; reflexivity.
  - split; reflexivity.
Qed.

(** ** The properties of [forward] *)

(** C9.  [forward] changes no tensor object that existed before the call,
    in particular no parameter of the layer, whatever the mode and whether
    it returns or raises; of the attributes of the instance it writes only
    [p] and [regularisation]. *)
Theorem forward_frame (x : loc) (layer : Layer) (w : World) :
  let w' := fst (forward x layer w) in
  (forall l, (l < length (heap w))%nat ->
             lookup (heap w') l = lookup (heap w) l) /\
  (forall param, In param (parameters layer) ->
                 (param < length (heap w))%nat ->
                 lookup (heap w') param = lookup (heap w) param) /\
  same_config (self w) (self w').
Proof.
  destruct (safe_forward (length (heap w)) w x layer w
              (preserved_refl false false w)) as [(_ & Hlk & Hc & _) _].
  cbn zeta. repeat split; try apply Hc; auto.
Qed.

Lemma forward_frame_witness :
  lookup (heap (fst (forward 0%nat example_layer (example_world true)))) 1%nat
  = example_weight.
Proof.
  apply (proj1 (proj2 (forward_frame 0%nat example_layer (example_world true)))
           1%nat); cbn; [now left|lia].
Defined.

(** C8.  For an input whose leading dimension is zero [forward] raises:
    if nothing before it does, [x[0]] raises. *)
Theorem forward_empty_batch_raises (x : loc) (layer : Layer) (w : World)
    (s : list nat) :
  (x < length (heap w))%nat ->
  shape (lookup (heap w) x) = 0%nat :: s ->
  exists e, snd (forward x layer w) = inl e.
Proof.
  intros Hx Hs.
  destruct (safe_forward (length (heap w)) w x layer w
              (preserved_refl false false w)) as [_ Hret].
  destruct (snd (forward x layer w)) as [e|out].
  - now exists e.
  - destruct (Hret out eq_refl Hx) as [x0 Hx0].
    unfold Torch.getitem0 in Hx0. rewrite Hs in Hx0. discriminate.
Qed.

Lemma forward_empty_batch_raises_witness :
  exists e, snd (forward 0%nat example_layer empty_batch_world) = inl e.
Proof.
  apply (forward_empty_batch_raises 0%nat example_layer empty_batch_world
           [2%nat]); cbn; [lia|reflexivity].
Defined.

(** ** Construction *)

Lemma init_run wr dr imin imax tmp mc h s g n :
  let a := ln imin - ln (1 - imin) in
  let b := ln imax - ln (1 - imax) in
  a <= b ->
  __init__ wr dr imin imax tmp mc (mkWorld h s g n) =
  (mkWorld
     (h ++ [mkTensor float32 [1%nat] [a + g n * (b - a)];
            mkTensor float32 [1%nat] [Torch.sigmoid_R (a + g n * (b - a))]])
     (mkConcreteDropout wr dr (length h) (length h + 1)%nat tmp mc (Num 0) true)
     g (n + 1)%nat,
   inr tt).
Proof.
  intros a b Hab. unfold __init__, uniform_. fold a b.
  destruct (Rle_dec a b) as [_|Hn]; [|contradiction].
  run. heap_simpl. cbn. rewrite update_snoc. heap_simpl. cbn. world_simpl.
  reflexivity.
Qed.

Lemma init_raises wr dr imin imax tmp mc h s g n :
  ln imax - ln (1 - imax) < ln imin - ln (1 - imin) ->
  __init__ wr dr imin imax tmp mc (mkWorld h s g n) =
  (mkWorld (h ++ [Torch.empty1])
     (with_dropout_regulariser dr
        (with_weight_regulariser wr (with_training true s))) g n,
   inl RuntimeError).
Proof.
  intros Hab. unfold __init__, uniform_.
  destruct (Rle_dec _ _) as [Hle|_]; [lra|]. reflexivity.
Qed.

(** A constructed instance is ready for a call on live arguments. *)
Lemma init_ready wr dr imin imax tmp mc w w' x layer :
  __init__ wr dr imin imax tmp mc w = (w', inr tt) ->
  (x < length (heap w))%nat ->
  Forall (fun l => (l < length (heap w))%nat) (parameters layer) ->
  well_shaped (lookup (heap w) x) ->
  ready w' x layer.
Proof.
  destruct w as [h s g n]. intros Hrun Hx Hps Hxw. cbn [heap] in *.
  destruct (Rle_dec (ln imin - ln (1 - imin)) (ln imax - ln (1 - imax)))
    as [Hle|Hgt].
  - rewrite init_run in Hrun by exact Hle. injection Hrun as <-.
    constructor; unfold p_logit_tensor, p_tensor;
      cbn [heap self p p_logit]; rewrite ?length_app; cbn [length]; try lia.
    + eapply Forall_impl; [|exact Hps]. cbn. intros; lia.
    + now rewrite lookup_old.
    + rewrite lookup_new. split; reflexivity.
    + rewrite (lookup_offset h _ 1). split; reflexivity.
  - rewrite init_raises in Hrun by lra. discriminate.
Qed.

(** C5.  The configured temperature has no effect.  Constructing with two
    temperatures gives states that differ in the attribute [temperature]
    only; and on two states that differ in it only, [forward] has the same
    outcome, leaves the same store (so the same output and regularisation
    tensors), the same [regularisation] attribute, and again two states
    that differ in the temperature only. *)
Theorem temperature_has_no_effect :
  (forall wr dr imin imax t1 t2 mc w,
      same_but true false (fst (__init__ wr dr imin imax t1 mc w))
                          (fst (__init__ wr dr imin imax t2 mc w)) /\
      snd (__init__ wr dr imin imax t1 mc w)
      = snd (__init__ wr dr imin imax t2 mc w)) /\
  (forall x layer w1 w2,
      same_but true false w1 w2 ->
      snd (forward x layer w1) = snd (forward x layer w2) /\
      heap (fst (forward x layer w1)) = heap (fst (forward x layer w2)) /\
      regularisation (self (fst (forward x layer w1)))
      = regularisation (self (fst (forward x layer w2))) /\
      same_but true false (fst (forward x layer w1))
                          (fst (forward x layer w2))).
Proof.
  split.
  - intros wr dr imin imax t1 t2 mc [h s g n].
    destruct (Rle_dec (ln imin - ln (1 - imin)) (ln imax - ln (1 - imax)))
      as [Hle|Hgt].
    + rewrite !init_run by exact Hle. cbn.
      unfold same_but, same_attrs; cbn. intuition discriminate.
    + rewrite !init_raises by lra. cbn.
      unfold same_but, same_attrs; cbn. intuition discriminate.
  - intros x layer w1 w2 H.
    destruct (respects_forward true x layer w1 w2 H) as [Hw Hr].
    repeat split; try apply Hw; auto.
Qed.

Lemma temperature_has_no_effect_witness :
  snd (forward 0%nat example_layer (example_world true)) =
  snd (forward 0%nat example_layer
         (mkWorld (heap (example_world true))
            (mkConcreteDropout 1 1 2%nat 3%nat 7 false (Num 0) true)
            (fun _ => 1 / 2) 0%nat)).
Proof.
  apply (proj2 temperature_has_no_effect 0%nat example_layer
           (example_world true)).
  unfold same_but, same_attrs; cbn. intuition discriminate.
Defined.

(** C10.  Outside training and without [mc_dropout], [forward] draws
    nothing from the random generator, and its outcome, the store it
    leaves and the regularisation it stores are the same whatever the
    generator's state; a second call after a first returns and stores
    tensors equal to those of the first. *)
Theorem forward_eval_deterministic (x : loc) (layer : Layer) (w : World) :
  training (self w) = false -> mc_dropout (self w) = false ->
  rng_pos (fst (forward x layer w)) = rng_pos w /\
  (forall w2, same_but false true w w2 ->
     snd (forward x layer w2) = snd (forward x layer w) /\
     heap (fst (forward x layer w2)) = heap (fst (forward x layer w)) /\
     regularisation (self (fst (forward x layer w2)))
     = regularisation (self (fst (forward x layer w)))) /\
  (forall x0 r,
     ready w x layer ->
     Torch.getitem0 (lookup (heap w) x) = inr x0 ->
     fn layer (map (lookup (heap w)) (parameters layer)) (lookup (heap w) x)
     = inr r ->
     exists w1 out1 l1 w2 out2 l2,
       forward x layer w = (w1, inr out1) /\
       forward x layer w1 = (w2, inr out2) /\
       regularisation (self w1) = Ref l1 /\
       regularisation (self w2) = Ref l2 /\
       lookup (heap w2) out2 = lookup (heap w1) out1 /\
       lookup (heap w2) l2 = lookup (heap w1) l1).
Proof.
  intros Ht Hm. split; [|split].
  - rewrite forward_without_dropout by assumption.
    destruct (safe_call_and_regularise true true (length (heap w)) w layer x x
                w (preserved_refl true true w)) as [(_ & _ & _ & _ & _ & Hn) _].
    now apply Hn.
  - intros w2 H.
    assert (Ht2 : training (self w2) = false).
    { destruct H as (_ & Hs & _). unfold same_attrs in Hs.
      now replace (training (self w2)) with (training (self w)) by apply Hs. }
    assert (Hm2 : mc_dropout (self w2) = false).
    { destruct H as (_ & Hs & _). unfold same_attrs in Hs.
      now replace (mc_dropout (self w2)) with (mc_dropout (self w)) by apply Hs. }
    rewrite !forward_without_dropout by assumption.
    destruct (respects_call_and_regularise false true layer x x w w2 H)
      as [Hw Hr].
    repeat split; try (symmetry; apply Hw); auto.
  - intros x0 r Hready Hx0 Hfn.
    destruct (forward_run_bypass w x layer x0 r Hready Ht Hm Hx0 Hfn)
      as (w1 & out1 & l1 & Hrun1 & Hout1 & Hself1 & Hreg1 & _ & Hl1 & Hframe1).
    destruct Hready as [Hx Hpl Hp Hps Hxw Hpl1 Hp1].
    assert (Hparams : map (lookup (heap w1)) (parameters layer)
                      = map (lookup (heap w)) (parameters layer)).
    { apply map_ext_in. intros l Hl. apply Hframe1.
      rewrite Forall_forall in Hps. now apply Hps. }
    assert (Hpt : p_tensor w1 = p_tensor w).
    { unfold p_tensor. rewrite Hself1. cbn. now apply Hframe1. }
    assert (Hready1 : ready w1 x layer).
    { constructor; rewrite ?Hself1; cbn; try lia.
      - eapply Forall_impl; [|exact Hps]. cbn. intros; lia.
      - now rewrite Hframe1.
      - unfold p_logit_tensor. rewrite Hself1. cbn. now rewrite Hframe1.
      - now rewrite Hpt. }
    destruct (forward_run_bypass w1 x layer x0 r Hready1)
      as (w2 & out2 & l2 & Hrun2 & Hout2 & Hself2 & Hreg2 & _ & Hl2 & Hframe2).
    { now rewrite Hself1. }
    { now rewrite Hself1. }
    { now rewrite Hframe1. }
    { now rewrite Hparams, Hframe1. }
    exists w1, out1, l1, w2, out2, l2.
    repeat split; auto.
    + now rewrite Hself1.
    + now rewrite Hself2.
    + rewrite Hout2. symmetry. apply Hout1.
    + rewrite Hreg2, Hreg1, Hparams, Hpt, Hself1. reflexivity.
Qed.

Lemma forward_eval_deterministic_witness :
  rng_pos (fst (forward 0%nat example_layer (example_world false))) = 0%nat.
Proof.
  apply (proj1 (forward_eval_deterministic 0%nat example_layer
                  (example_world false) eq_refl eq_refl)).
Defined.

(** C3 (amended).  Outside training and without [mc_dropout], for an input
    with a first sample (at least one dimension, the leading one not
    zero), [forward] passes [x] itself to the layer: when the layer
    returns a tensor, [forward] returns that tensor, and when the layer
    raises, [forward] raises the same exception.  The input object is
    left as it was and no random number is drawn. *)
Theorem forward_bypass (x : loc) (layer : Layer) (w : World) (x0 : Tensor) :
  ready w x layer ->
  training (self w) = false -> mc_dropout (self w) = false ->
  Torch.getitem0 (lookup (heap w) x) = inr x0 ->
  match fn layer (map (lookup (heap w)) (parameters layer))
           (lookup (heap w) x) with
  | inr r =>
      exists w' out,
        forward x layer w = (w', inr out) /\
        lookup (heap w') out = r /\
        lookup (heap w') x = lookup (heap w) x /\
        rng_pos w' = rng_pos w
  | inl e => forward x layer w = (w, inl e)
  end.
Proof.
  intros Hready Ht Hm Hx0.
  destruct (fn layer _ _) as [e|r] eqn:Hfn.
  - now apply forward_bypass_raises.
  - destruct (forward_run_bypass w x layer x0 r Hready Ht Hm Hx0 Hfn)
      as (w' & out & l & Hrun & Hout & _ & _ & Hn & _ & Hframe).
    exists w', out. repeat split; auto.
    apply Hframe. apply Hready.
Qed.

Lemma forward_bypass_witness :
  exists w' out,
    forward 0%nat example_layer (example_world false) = (w', inr out) /\
    lookup (heap w') out = example_x /\
    lookup (heap w') 0%nat = example_x /\
    rng_pos w' = 0%nat.
Proof.
  apply (forward_bypass 0%nat example_layer (example_world false)
           (mkTensor float32 [2%nat] [1; 2])
           (example_ready false) eq_refl eq_refl eq_refl).
Defined.

(** C3 as stated fails for an input without a first sample: on an empty
    batch, outside training and without [mc_dropout], the layer returns
    its input, and [forward] raises [IndexError] at [x[0]] on line 87
    instead of returning it. *)
Lemma forward_bypass_empty_batch_counterexample :
  training (self empty_batch_world) = false /\
  mc_dropout (self empty_batch_world) = false /\
  fn example_layer
    (map (lookup (heap empty_batch_world)) (parameters example_layer))
    (lookup (heap empty_batch_world) 0%nat)
  = inr (mkTensor float32 [0%nat; 2%nat] []) /\
  snd (forward 0%nat example_layer empty_batch_world) = inl IndexError.
Proof.
  split; [reflexivity|]. split; [reflexivity|]. split; [reflexivity|].
  rewrite forward_without_dropout by reflexivity.
  unfold empty_batch_world, example_layer, forward_rest, sum_squares.
  run. unfold lookup; cbn. reflexivity.
Qed.

Lemma sigmoid_in_unit_interval (t : Tensor) :
  in_unit_interval (Torch.sigmoid t).
Proof.
  unfold in_unit_interval, Torch.sigmoid, Torch.pointwise; cbn.
  apply Forall_forall. intros v Hv. apply in_map_iff in Hv as (u & <- & _).
  apply sigmoid_R_range.
Qed.

(** ** The float32 kernel of the sigmoid *)

Lemma pow2_IZR (k : nat) : 2 ^ k = IZR (2 ^ Z.of_nat k).
Proof. now rewrite <- pow_IZR. Qed.

Lemma pow2_pos (k : nat) : 0 < 2 ^ k.
Proof. apply pow_lt; lra. Qed.

Lemma pow2_mono (a b : nat) : (a <= b)%nat -> 2 ^ a <= 2 ^ b.
Proof. intros H. apply Rle_pow; [lra|exact H]. Qed.

Lemma representable_scaled (m : Z) (k : nat) (f : R) :
  (Z.abs m < 2 ^ 24)%Z -> (k <= 253)%nat ->
  f * 2 ^ 149 = IZR m * 2 ^ k ->
  Float32.representable f.
Proof.
  intros Hm Hk Hf. exists m, k. repeat split; auto.
  pose proof (pow2_pos 149). rewrite <- Hf. field; lra.
Qed.

Lemma representable_IZR (n : Z) :
  (Z.abs n < 2 ^ 24)%Z -> Float32.representable (IZR n).
Proof.
  intros Hn. apply (representable_scaled n 149); auto. lia.
Qed.

Lemma representable_0 : Float32.representable 0.
Proof. apply (representable_IZR 0). lia. Qed.

Lemma representable_1 : Float32.representable 1.
Proof. apply (representable_IZR 1). lia. Qed.

(** [2 ^ a / 2 ^ b] for exponents in range. *)
Lemma representable_pow2 (a b : nat) :
  (a + 149 <= 253 + b)%nat -> (b <= a + 149)%nat ->
  Float32.representable (2 ^ a / 2 ^ b).
Proof.
  intros H1 H2. apply (representable_scaled 1 (a + 149 - b)); [lia|lia|].
  pose proof (pow2_pos b). rewrite Rmult_1_l.
  replace (2 ^ 149) with (2 ^ 149 * 1) by ring.
  apply Rmult_eq_reg_r with (2 ^ b); [|lra].
  replace (2 ^ a / 2 ^ b * (2 ^ 149 * 1) * 2 ^ b) with (2 ^ a * 2 ^ 149)
    by (field; lra).
  rewrite <- !pow_add. f_equal. lia.
Qed.

Lemma nearest_faithful (v f : R) :
  Float32.nearest v f -> Float32.faithful v f.
Proof.
  intros [Hf Hmin]. split; [exact Hf|]. intros g Hg.
  specialize (Hmin g Hg). split; intros Hgv.
  - destruct (Rle_lt_dec g f) as [H|H]; [exact H|].
    rewrite (Rabs_left1 (f - v)), (Rabs_left1 (g - v)) in Hmin by lra. lra.
  - destruct (Rle_lt_dec f g) as [H|H]; [exact H|].
    rewrite (Rabs_pos_eq (f - v)), (Rabs_pos_eq (g - v)) in Hmin by lra. lra.
Qed.

Lemma faithful_exact (v f : R) :
  Float32.representable v -> Float32.faithful v f -> f = v.
Proof.
  intros Hv [Hf H]. destruct (H v Hv) as [H1 H2].
  apply Rle_antisym; [apply H2|apply H1]; lra.
Qed.

Lemma nearest_exact (v f : R) :
  Float32.representable v -> Float32.nearest v f -> f = v.
Proof. intros Hv H. now apply faithful_exact, nearest_faithful. Qed.

Lemma nearest_refl (v : R) : Float32.representable v -> Float32.nearest v v.
Proof.
  intros Hv. split; [exact Hv|]. intros g _.
  replace (v - v) with 0 by ring. rewrite Rabs_R0. apply Rabs_pos.
Qed.

Lemma faithful_refl (v : R) : Float32.representable v -> Float32.faithful v v.
Proof. intros Hv. now apply nearest_faithful, nearest_refl. Qed.

(** The least positive value is [2 ^ -149]. *)
Lemma representable_pos_min (g : R) :
  Float32.representable g -> 0 < g -> / 2 ^ 149 <= g.
Proof.
  intros (m & k & Hm & Hk & ->) Hpos.
  pose proof (pow2_pos 149) as H149. pose proof (pow2_pos k) as Hk0.
  assert (H1 : 1 <= 2 ^ k) by (apply pow_R1_Rle; lra).
  assert (Hm0 : 0 < IZR m).
  { destruct (Rlt_le_dec 0 (IZR m)) as [H|H]; [exact H|].
    exfalso. assert (IZR m * 2 ^ k / 2 ^ 149 <= 0); [|lra].
    unfold Rdiv. assert (0 < / 2 ^ 149) by now apply Rinv_0_lt_compat.
    nra. }
  assert (Hm1 : 1 <= IZR m) by (apply IZR_le; apply lt_IZR in Hm0; lia).
  unfold Rdiv. assert (0 < / 2 ^ 149) by now apply Rinv_0_lt_compat.
  nra.
Qed.

(** No value lies strictly between 1 and [1 + 2 ^ -23]. *)
Lemma representable_near_1 (s : R) :
  Float32.representable s -> 1 <= s -> s < 1 + / 2 ^ 23 -> s = 1.
Proof.
  intros (m & k & Hm & Hk & ->) H1 H2.
  pose proof (pow2_pos 149) as H149. pose proof (pow2_pos 23) as H23.
  pose proof (pow2_pos 126) as H126.
  assert (E149 : 2 ^ 149 = 2 ^ 23 * 2 ^ 126) by (rewrite <- pow_add; reflexivity).
  assert (Hs1 : 2 ^ 149 <= IZR m * 2 ^ k).
  { apply Rmult_le_reg_r with (/ 2 ^ 149); [now apply Rinv_0_lt_compat|].
    rewrite Rinv_r by lra. exact H1. }
  assert (Hs2 : IZR m * 2 ^ k * 2 ^ 23 < (2 ^ 23 + 1) * 2 ^ 149).
  { apply Rmult_lt_compat_r with (r := 2 ^ 149 * 2 ^ 23) in H2; [|nra].
    replace (IZR m * 2 ^ k / 2 ^ 149 * (2 ^ 149 * 2 ^ 23))
      with (IZR m * 2 ^ k * 2 ^ 23) in H2 by (field; lra).
    replace ((1 + / 2 ^ 23) * (2 ^ 149 * 2 ^ 23))
      with ((2 ^ 23 + 1) * 2 ^ 149) in H2 by (field; lra).
    exact H2. }
  destruct (le_lt_dec 126 k) as [Hge|Hlt].
  - replace k with (126 + (k - 126))%nat in * by lia.
    set (j := (k - 126)%nat) in *.
    rewrite pow_add in *.
    rewrite (pow2_IZR j) in *.
    set (t := (m * 2 ^ Z.of_nat j)%Z).
    assert (Ht : IZR m * (2 ^ 126 * IZR (2 ^ Z.of_nat j)) = 2 ^ 126 * IZR t).
    { unfold t. rewrite mult_IZR. ring. }
    rewrite Ht in *.
    assert (Ht1 : 2 ^ 23 <= IZR t) by nra.
    assert (Ht2 : IZR t < 2 ^ 23 + 1) by nra.
    rewrite pow2_IZR in Ht1, Ht2.
    replace 1 with (IZR 1) in Ht2 by reflexivity.
    rewrite <- plus_IZR in Ht2.
    apply le_IZR in Ht1. apply lt_IZR in Ht2.
    assert (Et : t = (2 ^ Z.of_nat 23)%Z) by lia.
    rewrite Et, <- pow2_IZR, E149. field; lra.
  - exfalso.
    assert (Hk' : 2 ^ k <= 2 ^ 125) by (apply pow2_mono; lia).
    assert (Hm' : IZR m <= 2 ^ 24 - 1).
    { rewrite pow2_IZR. replace 1 with (IZR 1) by reflexivity.
      rewrite <- minus_IZR. apply IZR_le. cbn [Z.of_nat Pos.of_succ_nat Pos.succ].
      lia. }
    assert (E : 2 ^ 149 = 2 ^ 24 * 2 ^ 125) by (rewrite <- pow_add; reflexivity).
    pose proof (pow2_pos 125). pose proof (pow2_pos 24). pose proof (pow2_pos k).
    destruct (Rlt_le_dec 0 (IZR m)) as [Hp|Hn]; nra.
Qed.

Lemma exp_nat (n : nat) : exp (IZR (Z.of_nat n)) = exp 1 ^ n.
Proof.
  rewrite <- INR_IZR_INZ. induction n as [|n IH].
  - cbn. apply exp_0.
  - rewrite S_INR, exp_plus, IH. cbn [pow]. ring.
Qed.

Lemma exp_nat_lower (n : nat) : 2 ^ n <= exp (IZR (Z.of_nat n)).
Proof.
  rewrite exp_nat. apply pow_incr. pose proof (exp_ineq1_le 1). lra.
Qed.

Lemma exp_nat_upper (n : nat) : exp (IZR (Z.of_nat n)) <= 3 ^ n.
Proof.
  rewrite exp_nat. apply pow_incr. pose proof (exp_pos 1).
  pose proof exp_le_3. lra.
Qed.

Lemma exp_monotone (u v : R) : u <= v -> exp u <= exp v.
Proof.
  intros [H| ->]; [left; now apply exp_increasing|right; reflexivity].
Qed.

Lemma exp_neg_upper (n : nat) (x : R) :
  IZR (Z.of_nat n) <= x -> exp (- x) <= / 2 ^ n.
Proof.
  intros Hx. rewrite exp_Ropp. apply Rinv_le_contravar; [apply pow2_pos|].
  apply Rle_trans with (exp (IZR (Z.of_nat n)));
    [apply exp_nat_lower|now apply exp_monotone].
Qed.

Lemma max_value_bounds : 2 ^ 127 <= Float32.max_value < 2 ^ 128.
Proof.
  unfold Float32.max_value.
  pose proof (pow2_pos 149). pose proof (pow2_pos 104). pose proof (pow2_pos 24).
  assert (E253 : 2 ^ 253 = 2 ^ 104 * 2 ^ 149) by (rewrite <- pow_add; reflexivity).
  assert (E127 : 2 ^ 127 = 2 ^ 23 * 2 ^ 104) by (rewrite <- pow_add; reflexivity).
  assert (E128 : 2 ^ 128 = 2 ^ 24 * 2 ^ 104) by (rewrite <- pow_add; reflexivity).
  assert (E24 : 2 ^ 24 = 2 * 2 ^ 23) by reflexivity.
  pose proof (pow2_pos 23).
  assert (Em : IZR (2 ^ 24 - 1) = 2 ^ 24 - 1).
  { rewrite minus_IZR. f_equal. now rewrite pow2_IZR. }
  rewrite Em, E253.
  replace ((2 ^ 24 - 1) * (2 ^ 104 * 2 ^ 149) / 2 ^ 149)
    with ((2 ^ 24 - 1) * 2 ^ 104) by (field; lra).
  assert (1 <= 2 ^ 23) by (apply pow_R1_Rle; lra).
  split; nra.
Qed.

Lemma faithful_nonneg (v f : R) : 0 <= v -> Float32.faithful v f -> 0 <= f.
Proof. intros Hv [_ H]. now apply (H 0 representable_0). Qed.

Lemma faithful_ge (v f g : R) :
  Float32.faithful v f -> Float32.representable g -> g <= v -> g <= f.
Proof. intros [_ H] Hg. now apply (H g Hg). Qed.

Lemma faithful_le (v f g : R) :
  Float32.faithful v f -> Float32.representable g -> v <= g -> f <= g.
Proof. intros [_ H] Hg. now apply (H g Hg). Qed.

(** In the float32 kernel the result is never outside [0, 1]. *)
Lemma float32_sigmoid_closed_range (x p : R) :
  Float32.sigmoid x p -> 0 <= p <= 1.
Proof.
  intros [[_ ->]|(_ & e & s & He & Hs & Hp)]; [lra|].
  pose proof (exp_pos (- x)) as Hexp.
  assert (He0 : 0 <= e) by (apply (faithful_nonneg (exp (- x))); [lra|exact He]).
  apply nearest_faithful in Hs, Hp.
  assert (Hs1 : 1 <= s) by (apply (faithful_ge (1 + e)); [exact Hs|apply representable_1|lra]).
  assert (Hinv : 0 < 1 / s <= 1).
  { split; [apply Rdiv_lt_0_compat; lra|].
    apply Rmult_le_reg_r with s; [lra|]. unfold Rdiv.
    rewrite Rmult_assoc, Rinv_l by lra. lra. }
  split.
  - apply (faithful_nonneg (1 / s)); [lra|exact Hp].
  - apply (faithful_le (1 / s)); [exact Hp|apply representable_1|lra].
Qed.

(** From 25 upwards the float32 kernel returns exactly 1. *)
Lemma float32_sigmoid_saturates_high (x p : R) :
  25 <= x -> Float32.sigmoid x p -> p = 1.
Proof.
  intros Hx Hsig.
  pose proof (exp_pos (- x)) as Hexp.
  assert (Hsmall : exp (- x) <= / 2 ^ 25).
  { apply exp_neg_upper. exact Hx. }
  pose proof (pow2_pos 25) as H25. pose proof (pow2_pos 23) as H23.
  assert (E25 : 2 ^ 25 = 4 * 2 ^ 23)
    by (change (2 ^ 25) with (2 * (2 * 2 ^ 23)); ring).
  assert (Hi25 : / 2 ^ 25 = / 2 ^ 23 / 4) by (rewrite E25; field; lra).
  assert (Hi23 : 0 < / 2 ^ 23) by now apply Rinv_0_lt_compat.
  assert (Hone : 1 <= 2 ^ 23) by (apply pow_R1_Rle; lra).
  assert (Hi1 : / 2 ^ 23 <= 1).
  { rewrite <- Rinv_1. apply Rinv_le_contravar; lra. }
  destruct Hsig as [[Hov _]|(_ & e & s & He & Hs & Hp)].
  - pose proof max_value_bounds as [Hmax _].
    assert (1 <= 2 ^ 127) by (apply pow_R1_Rle; lra). lra.
  - assert (He0 : 0 <= e) by (apply (faithful_nonneg (exp (- x))); [lra|exact He]).
    assert (He1 : e <= / 2 ^ 25).
    { apply (faithful_le (exp (- x))); [exact He| |exact Hsmall].
      replace (/ 2 ^ 25) with (2 ^ 0 / 2 ^ 25) by (cbn [pow]; field; lra).
      apply representable_pow2; lia. }
    assert (Hs1 : 1 <= s).
    { apply (faithful_ge (1 + e)); [now apply nearest_faithful
                                   |apply representable_1|lra]. }
    assert (Hs2 : s = 1).
    { apply representable_near_1; [apply Hs|exact Hs1|].
      destruct Hs as [_ Hmin]. specialize (Hmin 1 representable_1).
      rewrite (Rabs_left1 (1 - (1 + e))) in Hmin by lra.
      destruct (Rle_lt_dec s (1 + e)) as [Hle|Hgt]; [lra|].
      rewrite (Rabs_pos_eq (s - (1 + e))) in Hmin by lra. lra. }
    subst s. apply nearest_exact; [apply representable_1|].
    replace 1 with (1 / 1) at 1 by lra. exact Hp.
Qed.

(** From -128 downwards the float32 kernel returns exactly 0. *)
Lemma float32_sigmoid_saturates_low (x p : R) :
  x <= - 128 -> Float32.sigmoid x p -> p = 0.
Proof.
  intros Hx [[_ ->]|(Hlt & _)]; [reflexivity|].
  exfalso.
  assert (2 ^ 128 <= exp (- x)); [|lra].
  apply Rle_trans with (exp 128); [|apply exp_monotone; lra].
  apply (exp_nat_lower 128).
Qed.

(** From 150 upwards [exp (- x)] is below the least positive value, and 1
    is a result of the kernel. *)
Lemma float32_sigmoid_high (x : R) : 150 <= x -> Float32.sigmoid x 1.
Proof.
  intros Hx. right.
  pose proof (exp_pos (- x)) as Hexp.
  assert (Hsmall : exp (- x) <= / 2 ^ 150) by now apply exp_neg_upper.
  assert (Hlt : / 2 ^ 150 < / 2 ^ 149).
  { apply Rinv_lt_contravar.
    - pose proof (pow2_pos 150). pose proof (pow2_pos 149). nra.
    - apply Rlt_pow; [lra|lia]. }
  split.
  { assert (1 <= 2 ^ 128) by (apply pow_R1_Rle; lra).
    assert (/ 2 ^ 150 <= 1).
    { rewrite <- Rinv_1. apply Rinv_le_contravar; [lra|].
      apply pow_R1_Rle; lra. }
    lra. }
  exists 0, 1. split; [|split].
  - split; [apply representable_0|]. intros g Hg. split; intros H.
    + destruct (Rle_lt_dec g 0) as [Hle|Hpos]; [exact Hle|].
      pose proof (representable_pos_min g Hg Hpos). lra.
    + lra.
  - rewrite Rplus_0_r. apply nearest_refl, representable_1.
  - replace (1 / 1) with 1 by lra. apply nearest_refl, representable_1.
Qed.

(** From -128 downwards [exp (- x)] is above the largest value, and 0 is
    the result of the kernel. *)
Lemma float32_sigmoid_low (x : R) : x <= - 128 -> Float32.sigmoid x 0.
Proof.
  intros Hx. left. split; [|reflexivity].
  pose proof max_value_bounds as [_ Hmax].
  apply Rlt_le_trans with (2 ^ 128); [exact Hmax|].
  apply Rle_trans with (exp 128); [|apply exp_monotone; lra].
  apply (exp_nat_lower 128).
Qed.

Lemma representable_2 : Float32.representable 2.
Proof. apply (representable_IZR 2). lia. Qed.

Lemma representable_half : Float32.representable (1 / 2).
Proof.
  replace (1 / 2) with (2 ^ 0 / 2 ^ 1) by (cbn [pow]; lra).
  apply representable_pow2; lia.
Qed.

Lemma float32_sigmoid_0 : Float32.sigmoid 0 (1 / 2).
Proof.
  right. rewrite Ropp_0, exp_0. split.
  { assert (1 <= 2 ^ 128) by (apply pow_R1_Rle; lra).
    assert (2 ^ 128 <> 1); [|lra].
    change (2 ^ 128) with (2 * 2 ^ 127).
    assert (1 <= 2 ^ 127) by (apply pow_R1_Rle; lra). lra. }
  exists 1, 2. split; [|split].
  - apply faithful_refl, representable_1.
  - replace (1 + 1) with 2 by ring. apply nearest_refl, representable_2.
  - apply nearest_refl, representable_half.
Qed.

Lemma pow3_14 : 3 ^ 14 <= 2 ^ 23.
Proof. rewrite !pow_IZR. apply IZR_le. now vm_compute. Qed.

Lemma representable_above_1 : Float32.representable (1 + / 2 ^ 23).
Proof.
  apply (representable_scaled (2 ^ 23 + 1) 126); [lia|lia|].
  pose proof (pow2_pos 23).
  assert (E149 : 2 ^ 149 = 2 ^ 23 * 2 ^ 126) by (rewrite <- pow_add; reflexivity).
  assert (Em : IZR (2 ^ 23 + 1) = 2 ^ 23 + 1).
  { rewrite plus_IZR. f_equal. now rewrite pow2_IZR. }
  rewrite Em, E149. field; lra.
Qed.

Lemma representable_below_1 : Float32.representable (1 - / 2 ^ 24).
Proof.
  apply (representable_scaled (2 ^ 24 - 1) 125); [lia|lia|].
  pose proof (pow2_pos 24).
  assert (E149 : 2 ^ 149 = 2 ^ 24 * 2 ^ 125) by (rewrite <- pow_add; reflexivity).
  assert (Em : IZR (2 ^ 24 - 1) = 2 ^ 24 - 1).
  { rewrite minus_IZR. f_equal. now rewrite pow2_IZR. }
  rewrite Em, E149. field; lra.
Qed.

Lemma representable_pow2_23_plus_1 : Float32.representable (1 + 2 ^ 23).
Proof.
  apply (representable_scaled (2 ^ 23 + 1) 149); [lia|lia|].
  assert (Em : IZR (2 ^ 23 + 1) = 2 ^ 23 + 1).
  { rewrite plus_IZR. f_equal. now rewrite pow2_IZR. }
  rewrite Em. ring.
Qed.

(** For a moderate argument the float32 result is strictly inside. *)
Lemma float32_sigmoid_open_range (x p : R) :
  - 14 <= x <= 14 -> Float32.sigmoid x p ->
  / 2 ^ 24 <= p <= 1 - / 2 ^ 24.
Proof.
  intros Hx Hsig.
  pose proof (pow2_pos 23) as H23. pose proof (pow2_pos 24) as H24.
  assert (E24 : 2 ^ 24 = 2 * 2 ^ 23) by reflexivity.
  assert (Hone : 1 <= 2 ^ 23) by (apply pow_R1_Rle; lra).
  assert (Hi23 : 0 < / 2 ^ 23) by now apply Rinv_0_lt_compat.
  assert (Hi24 : / 2 ^ 24 = / 2 ^ 23 / 2) by (rewrite E24; field; lra).
  assert (Hi1 : / 2 ^ 23 <= 1).
  { rewrite <- Rinv_1. apply Rinv_le_contravar; lra. }
  assert (Hup : forall y, y <= 14 -> exp y <= 2 ^ 23).
  { intros y Hy. apply Rle_trans with (exp 14); [now apply exp_monotone|].
    apply Rle_trans with (3 ^ 14); [apply (exp_nat_upper 14)|apply pow3_14]. }
  assert (Hhi : exp (- x) <= 2 ^ 23) by (apply Hup; lra).
  assert (Hlo : / 2 ^ 23 <= exp (- x)).
  { rewrite exp_Ropp. apply Rinv_le_contravar; [apply exp_pos|]. apply Hup; lra. }
  destruct Hsig as [[Hov _]|(_ & e & s & He & Hs & Hp)].
  - exfalso. pose proof max_value_bounds as [Hmax _].
    assert (2 ^ 23 <= 2 ^ 127) by (apply pow2_mono; lia). lra.
  - apply nearest_faithful in Hs, Hp.
    assert (He1 : / 2 ^ 23 <= e).
    { apply (faithful_ge (exp (- x))); [exact He| |exact Hlo].
      replace (/ 2 ^ 23) with (2 ^ 0 / 2 ^ 23) by (cbn [pow]; field; lra).
      apply representable_pow2; lia. }
    assert (He2 : e <= 2 ^ 23).
    { apply (faithful_le (exp (- x))); [exact He| |exact Hhi].
      replace (2 ^ 23) with (2 ^ 23 / 2 ^ 0) by (cbn [pow]; field; lra).
      apply representable_pow2; lia. }
    assert (Hs1 : 1 + / 2 ^ 23 <= s).
    { apply (faithful_ge (1 + e)); [exact Hs|apply representable_above_1|lra]. }
    assert (Hs2 : s <= 1 + 2 ^ 23).
    { apply (faithful_le (1 + e));
        [exact Hs|apply representable_pow2_23_plus_1|lra]. }
    assert (Hs0 : 0 < s) by lra.
    assert (Hinv : 0 < / s) by now apply Rinv_0_lt_compat.
    assert (Hsi : s * / s = 1) by (apply Rinv_r; lra).
    split.
    + apply (faithful_ge (1 / s)); [exact Hp| |].
      * replace (/ 2 ^ 24) with (2 ^ 0 / 2 ^ 24) by (cbn [pow]; field; lra).
        apply representable_pow2; lia.
      * unfold Rdiv. rewrite Rmult_1_l.
        apply Rinv_le_contravar; [exact Hs0|lra].
    + apply (faithful_le (1 / s)); [exact Hp|apply representable_below_1|].
      unfold Rdiv. rewrite Rmult_1_l.
      apply Rmult_le_reg_l with s; [exact Hs0|]. rewrite Hsi.
      rewrite Hi24. nra.
Qed.

(** C6 (amended).  In exact arithmetic the sigmoid of every real lies
    strictly between 0 and 1.  In float32 a result of the kernel lies in
    the closed interval from 0 to 1, and strictly inside it when the
    argument is between -14 and 14.  [p] is never clamped: it is the
    result of [torch.sigmoid] on [p_logit] as [__init__] leaves it, for
    bounds strictly between 0 and 1, and after a call of [forward],
    returning or raising, it is the sigmoid of [p_logit] in training mode or
    with [mc_dropout] and the tensor it was otherwise. *)
Theorem keep_probability_range :
  (forall v, 0 < Torch.sigmoid_R v < 1) /\
  (forall x pv, Float32.sigmoid x pv -> 0 <= pv <= 1) /\
  (forall x pv, - 14 <= x <= 14 -> Float32.sigmoid x pv -> 0 < pv < 1) /\
  (forall wr dr imin imax tmp mc w w',
      0 < imin < 1 -> 0 < imax < 1 ->
      __init__ wr dr imin imax tmp mc w = (w', inr tt) ->
      p_tensor w' = Torch.sigmoid (p_logit_tensor w')) /\
  (forall x layer w,
      (p (self w) < length (heap w))%nat ->
      p_tensor (fst (forward x layer w)) =
        if training (self w) || mc_dropout (self w)
        then Torch.sigmoid (p_logit_tensor w)
        else p_tensor w).
Proof.
  split; [exact sigmoid_R_range|].
  split; [exact float32_sigmoid_closed_range|].
  split; [|split].
  - intros x pv Hx Hsig.
    destruct (float32_sigmoid_open_range x pv Hx Hsig) as [Hlo Hhi].
    assert (0 < / 2 ^ 24) by (apply Rinv_0_lt_compat, pow2_pos). lra.
  - intros wr dr imin imax tmp mc [h s g n] w' _ _ Hrun.
    destruct (Rle_dec (ln imin - ln (1 - imin)) (ln imax - ln (1 - imax)))
      as [Hle|Hgt].
    + rewrite init_run in Hrun by exact Hle. injection Hrun as <-.
      unfold p_tensor, p_logit_tensor; cbn [heap self p p_logit].
      rewrite (lookup_offset h _ 1), lookup_new. reflexivity.
    + rewrite init_raises in Hrun by lra. discriminate.
  - intros x layer w Hp.
    destruct (training (self w) || mc_dropout (self w)) eqn:Hmode.
    + rewrite forward_with_dropout by exact Hmode.
      set (w1 := after_set_p w).
      set (c := bind _ _).
      assert (Hsafe : safe true false (length (heap w1)) w1 c (fun _ => True)).
      { unfold c. eapply safe_bind; [apply safe_dropout_rest|]. intros xd _.
        eapply safe_weaken; [apply safe_call_and_regularise|auto]. }
      destruct (Hsafe w1 (preserved_refl true false w1))
        as [(_ & Hlk & _ & _ & Hkp & _) _].
      unfold p_tensor. rewrite (Hkp eq_refl), Hlk.
      * unfold w1, after_set_p; cbn [heap self p with_p].
        rewrite lookup_new. reflexivity.
      * unfold w1, after_set_p; cbn [heap self p with_p].
        rewrite length_app; cbn; lia.
    + apply orb_false_iff in Hmode as [Ht Hm].
      rewrite forward_without_dropout by assumption.
      destruct (safe_call_and_regularise true false (length (heap w)) w layer
                  x x w (preserved_refl true false w))
        as [(_ & Hlk & _ & _ & Hkp & _) _].
      unfold p_tensor. now rewrite (Hkp eq_refl), Hlk by exact Hp.
Qed.

Lemma keep_probability_range_witness :
  0 < 1 / 2 < 1 /\
  p_tensor (fst (forward 0%nat example_layer (example_world true)))
  = Torch.sigmoid (p_logit_tensor (example_world true)) /\
  p_tensor (fst (forward 0%nat example_layer (example_world false)))
  = p_tensor (example_world false).
Proof.
  split; [|split].
  - apply (proj1 (proj2 (proj2 keep_probability_range)) 0 (1 / 2));
      [lra|exact float32_sigmoid_0].
  - apply (proj2 (proj2 (proj2 (proj2 keep_probability_range))) 0%nat
             example_layer (example_world true)).
    cbn. lia.
  - apply (proj2 (proj2 (proj2 (proj2 keep_probability_range))) 0%nat
             example_layer (example_world false)).
    cbn. lia.
Defined.

(** C6 as stated fails in float32: at [p_logit = 200] the one result of
    the kernel is exactly 1, and at [p_logit = -200] it is exactly 0. *)
Lemma keep_probability_saturates_counterexample :
  Float32.sigmoid 200 1 /\
  (forall pv, Float32.sigmoid 200 pv -> pv = 1) /\
  Float32.sigmoid (- 200) 0 /\
  (forall pv, Float32.sigmoid (- 200) pv -> pv = 0).
Proof.
  split; [|split; [|split]].
  - apply float32_sigmoid_high. lra.
  - intros pv. apply float32_sigmoid_saturates_high. lra.
  - apply float32_sigmoid_low. lra.
  - intros pv. apply float32_sigmoid_saturates_low. lra.
Qed.

(** C1 (amended).  For an input with at least one dimension,
    [_concrete_dropout] returns a new tensor of the shape of [x] whose
    elements are [x * (1 - sigmoid(score / 0.1)) / (1 - p)], with
    [p = sigmoid(p_logit)], [eps] the machine epsilon of the dtype of [x],
    [u] the next uniform draws and
    [score = log(p+eps) - log(1-p+eps) + log(u+eps) - log(1-u+eps)];
    in training mode or with [mc_dropout], [forward] returns what the layer
    returns on that tensor.  The dtype of the tensor is the promotion of
    the dtypes of [p_logit] and [x]: the dtype of [x] when [p_logit] has
    it too. *)
Theorem concrete_dropout_transform (x : loc) (layer : Layer) (w : World) :
  ready w x layer ->
  shape (lookup (heap w) x) <> [] ->
  let xv := lookup (heap w) x in
  let pv := Torch.sigmoid_R (Torch.item (p_logit_tensor w)) in
  let eps := Torch.finfo_eps (dtype xv) in
  let us := map (rng w) (seq (rng_pos w) (Torch.numel xv)) in
  let score ui :=
    ln (pv + eps) - ln (1 - pv + eps) + ln (ui + eps) - ln (1 - ui + eps) in
  let dropped :=
    mkTensor (Torch.promote_types (dtype (p_logit_tensor w)) (dtype xv))
      (shape xv)
      (Torch.map2
         (fun xi ui => xi * (1 - Torch.sigmoid_R (score ui / (1 / 10)))
                       / (1 - pv))
         (data xv) us) in
  (exists w' out,
     _concrete_dropout x w = (w', inr out) /\
     lookup (heap w') out = dropped) /\
  (training (self w) || mc_dropout (self w) = true ->
   forall x0 r,
     Torch.getitem0 xv = inr x0 ->
     fn layer (map (lookup (heap w)) (parameters layer)) dropped = inr r ->
     exists w' out,
       forward x layer w = (w', inr out) /\ lookup (heap w') out = r) /\
  shape dropped = shape xv /\
  (dtype (p_logit_tensor w) = dtype xv -> dtype dropped = dtype xv).
Proof.
  intros Hready Hne xv pv eps us score dropped.
  split; [|split; [|split]].
  - destruct Hready as [Hx Hpl Hp Hps Hxw Hpl1 Hp1].
    destruct w as [h s g n]; cbn [heap self rng rng_pos] in *.
    unfold p_logit_tensor in *; cbn [heap self] in *.
    apply one_element_eq in Hpl1.
    destruct (concrete_dropout_run h s g n x _ _ Hx Hpl Hpl1 Hne Hxw)
      as (ext & Hrun & Hext).
    eexists _, _. split; [exact Hrun|].
    cbn [heap]. rewrite lookup_offset.
    destruct ext as [|e1 [|e2 [|e3 [|e4 [|e5 [|e6 ext]]]]]]; try discriminate.
    reflexivity.
  - intros Hmode x0 r Hx0 Hfn.
    destruct (forward_run_dropout w x layer x0 r Hready Hmode Hx0 Hfn)
      as (w' & out & l & Hrun & Hout & _).
    now exists w', out.
  - reflexivity.
  - intros Hd. cbn. rewrite Hd. apply promote_types_idem.
Qed.

Lemma concrete_dropout_transform_witness :
  exists w' out,
    forward 0%nat example_layer (example_world true) = (w', inr out) /\
    shape (lookup (heap w') out) = [2%nat; 2%nat].
Proof.
  destruct (proj1 (proj2 (concrete_dropout_transform 0%nat example_layer
                            (example_world true) (example_ready true)
                            ltac:(discriminate)))
              eq_refl (mkTensor float32 [2%nat] [1; 2]) _ eq_refl eq_refl)
    as (w' & out & Hrun & Hout).
  exists w', out. split; [exact Hrun|]. rewrite Hout. reflexivity.
Defined.

(** C1 as stated fails: the result of the transform on a float16 input is
    float32 when [p_logit] is. *)
Lemma concrete_dropout_dtype_counterexample :
  exists w' out,
    _concrete_dropout 0%nat half_world = (w', inr out) /\
    dtype (lookup (heap half_world) 0%nat) = float16 /\
    dtype (lookup (heap w') out) = float32.
Proof.
  destruct (concrete_dropout_run (heap half_world) (self half_world)
              (rng half_world) (rng_pos half_world) 0%nat float32 0)
    as (ext & Hrun & Hext); try (cbn; lia); try reflexivity.
  { discriminate. }
  destruct ext as [|e1 [|e2 [|e3 [|e4 [|e5 [|e6 ext]]]]]]; try discriminate.
  eexists _, _. split; [exact Hrun|]. split; reflexivity.
Qed.

(** C7 (amended).  With the sum of squares and the input fixed: when
    [weight_regulariser * sum_of_squares] is positive, [weights_reg]
    increases strictly with [p] on (0, 1); when
    [dropout_regulariser * numel] is not negative, [dropout_reg] is least
    at [p = 0.5] on (0, 1), and when it is positive that least value is
    negative and attained at 0.5 only; whatever the scale, [dropout_reg]
    tends to 0 as [p] tends to 0 or to 1. *)
Theorem regularisation_shape (wr sos dr : R) (n : nat) :
  (0 < wr * sos ->
   forall p1 p2, 0 < p1 -> p1 < p2 -> p2 < 1 ->
     weights_reg_at wr sos p1 < weights_reg_at wr sos p2) /\
  (0 <= dr * INR n ->
   forall pv, 0 < pv < 1 ->
     dropout_reg_at dr n (1 / 2) <= dropout_reg_at dr n pv) /\
  (0 < dr * INR n ->
   dropout_reg_at dr n (1 / 2) < 0 /\
   forall pv, 0 < pv < 1 -> pv <> 1 / 2 ->
     dropout_reg_at dr n (1 / 2) < dropout_reg_at dr n pv) /\
  (forall eps, 0 < eps ->
   exists delta, 0 < delta /\
     forall pv, 0 < pv < delta \/ 1 - delta < pv < 1 ->
       Rabs (dropout_reg_at dr n pv) < eps).
Proof.
  split; [|split; [|split]].
  - intros Hpos p1 p2 H1 H12 H2. unfold weights_reg_at, Rdiv.
    apply Rmult_lt_compat_l; [exact Hpos|].
    apply Rinv_lt_contravar; [nra|lra].
  - intros Hc pv Hp. rewrite !dropout_reg_at_entropy.
    apply Rmult_le_compat_r; [exact Hc|]. now apply neg_entropy_min.
  - intros Hc. split.
    + rewrite dropout_reg_at_entropy, neg_entropy_half.
      assert (Hln : 0 < ln 2) by (rewrite <- ln_1; apply ln_increasing; lra).
      nra.
    + intros pv Hp Hne. rewrite !dropout_reg_at_entropy.
      apply Rmult_lt_compat_r; [exact Hc|]. now apply neg_entropy_min_strict.
  - intros eps He.
    set (c := Rabs (dr * INR n)).
    assert (Hc : 0 <= c) by apply Rabs_pos.
    assert (He' : 0 < eps / (c + 1)) by (apply Rdiv_lt_0_compat; lra).
    destruct (neg_entropy_limit_0 _ He') as (d0 & Hd0 & Hl0).
    destruct (neg_entropy_limit_1 _ He') as (d1 & Hd1 & Hl1).
    exists (Rmin d0 d1). split; [now apply Rmin_glb_lt|].
    intros pv Hp.
    assert (Hent : Rabs (neg_entropy pv) < eps / (c + 1)).
    { pose proof (Rmin_l d0 d1). pose proof (Rmin_r d0 d1).
      destruct Hp as [Hp|Hp]; [apply Hl0|apply Hl1]; lra. }
    rewrite dropout_reg_at_entropy, Rabs_mult. fold c.
    pose proof (Rabs_pos (neg_entropy pv)) as Hpos.
    assert (Hle : Rabs (neg_entropy pv) * c <= eps / (c + 1) * c) by nra.
    assert (Hlt : eps / (c + 1) * c < eps).
    { replace eps with (eps / (c + 1) * (c + 1)) at 2 by (field; lra). nra. }
    lra.
Qed.

Lemma regularisation_shape_witness :
  weights_reg_at 1 25 (1 / 4) < weights_reg_at 1 25 (1 / 2) /\
  dropout_reg_at 1 2 (1 / 2) <= dropout_reg_at 1 2 (1 / 4) /\
  dropout_reg_at 1 2 (1 / 2) < 0.
Proof.
  split; [|split].
  - apply (proj1 (regularisation_shape 1 25 1 2)); lra.
  - apply (proj1 (proj2 (regularisation_shape 1 25 1 2))); cbn; lra.
  - apply (proj1 (proj2 (proj2 (regularisation_shape 1 25 1 2)))); cbn; lra.
Defined.

(** C7 as stated fails: for a layer without parameters the sum of squares
    is 0 and [weights_reg] is constant in [p]. *)
Lemma weights_reg_not_increasing_counterexample :
  sum_of_squares_of [] = 0 /\
  ~ (weights_reg_at (1 / 1000000) (sum_of_squares_of []) (1 / 4)
     < weights_reg_at (1 / 1000000) (sum_of_squares_of []) (1 / 2)).
Proof.
  split; [reflexivity|]. unfold weights_reg_at, sum_of_squares_of; cbn. lra.
Qed.

(** ** A parameter updated between construction and an inference call *)

Lemma stale_scenario_state :
  (__init__ (1 / 1000000) (1 / 100000) (1 / 10) (1 / 10) (1 / 10) false ;;;
   set_p_logit 0 ;;; module_eval) base_world = (stale_world, inr tt).
Proof.
  unfold base_world.
  erewrite bind_returns; [|apply init_run; lra].
  unfold set_p_logit, module_eval. run. world_simpl.
  unfold stale_world. do 2 f_equal. do 5 f_equal.
  replace (ln (1 / 10) - ln (1 - 1 / 10) +
           1 / 2 * (ln (1 / 10) - ln (1 - 1 / 10) - (ln (1 / 10) - ln (1 - 1 / 10))))
    with (ln (1 / 10) - ln (1 - 1 / 10)) by ring.
  rewrite sigmoid_R_logit by lra. reflexivity.
Qed.

Lemma example_sum_of_squares : sum_of_squares_of [example_weight] = 25.
Proof. unfold sum_of_squares_of, squares; cbn. lra. Qed.

Lemma stale_ready : ready stale_world 0%nat example_layer.
Proof.
  constructor; cbn; try lia.
  - repeat constructor.
  - reflexivity.
  - split; reflexivity.
  - split; reflexivity.
Qed.

(** The scenario returns; [p] is still 0.1 and the regularisation is
    computed from it. *)
Lemma stale_scenario_run :
  exists w' out l,
    stale_scenario base_world = (w', inr out) /\
    regularisation (self w') = Ref l /\
    lookup (heap w') l =
      mkTensor float32 [1%nat]
        [weights_reg_at (1 / 1000000) 25 (1 / 10)
         + dropout_reg_at (1 / 100000) 2 (1 / 10)] /\
    p_tensor w' = mkTensor float32 [1%nat] [1 / 10] /\
    p_logit_tensor w' = mkTensor float32 [1%nat] [0].
Proof.
  destruct (forward_run_bypass stale_world 0%nat example_layer
              (mkTensor float32 [2%nat] [1; 2]) example_x stale_ready
              eq_refl eq_refl eq_refl eq_refl)
    as (w' & out & l & Hrun & Hout & Hself & Hreg & Hn & Hl & Hframe).
  exists w', out, l. split; [|split; [|split; [|split]]].
  - unfold stale_scenario.
    pose proof stale_scenario_state as Hst.
    unfold bind in Hst |- *.
    destruct (__init__ _ _ _ _ _ _ base_world) as [w1 [e1|[]]];
      [discriminate|].
    destruct (set_p_logit 0 w1) as [w2 [e2|[]]]; [discriminate|].
    destruct (module_eval w2) as [w3 [e3|[]]]; [discriminate|].
    injection Hst as ->. exact Hrun.
  - now rewrite Hself.
  - rewrite Hreg. cbn [map parameters example_layer].
    change (lookup (heap stale_world) 1%nat) with example_weight.
    rewrite example_sum_of_squares. reflexivity.
  - unfold p_tensor. rewrite Hself. cbn [p with_regularisation].
    rewrite Hframe by (cbn; lia). reflexivity.
  - unfold p_logit_tensor. rewrite Hself. cbn [p_logit with_regularisation].
    rewrite Hframe by (cbn; lia). reflexivity.
Qed.

(** C4, at the failing input.  After a call of [forward] outside training
    the stored [p] is the one computed at construction, 0.1, and not the
    sigmoid of the current [p_logit], 0.5: [p] is recomputed only inside
    [_concrete_dropout]. *)
Theorem forward_eval_keeps_stale_p :
  exists w' out,
    stale_scenario base_world = (w', inr out) /\
    Torch.item (p_tensor w') = 1 / 10 /\
    Torch.sigmoid_R (Torch.item (p_logit_tensor w')) = 1 / 2 /\
    Torch.item (p_tensor w')
    <> Torch.sigmoid_R (Torch.item (p_logit_tensor w')).
Proof.
  destruct stale_scenario_run as (w' & out & l & Hrun & _ & _ & Hp & Hpl).
  exists w', out. rewrite Hp, Hpl. cbn. rewrite sigmoid_R_0.
  repeat split; auto. lra.
Qed.

(** C2, at the failing input.  After a call of [forward] outside training
    the stored regularisation is the value of the formula at the stale
    [p = 0.1], which differs from its value at [sigmoid(p_logit) = 0.5]. *)
Theorem forward_eval_regularisation_from_stale_p :
  exists w' out l,
    stale_scenario base_world = (w', inr out) /\
    regularisation (self w') = Ref l /\
    data (lookup (heap w') l) =
      [weights_reg_at (1 / 1000000) 25 (1 / 10)
       + dropout_reg_at (1 / 100000) 2 (1 / 10)] /\
    Torch.sigmoid_R (Torch.item (p_logit_tensor w')) = 1 / 2 /\
    weights_reg_at (1 / 1000000) 25 (1 / 10)
    + dropout_reg_at (1 / 100000) 2 (1 / 10)
    < weights_reg_at (1 / 1000000) 25 (1 / 2)
      + dropout_reg_at (1 / 100000) 2 (1 / 2).
Proof.
  destruct stale_scenario_run as (w' & out & l & Hrun & Hreg & Hl & Hp & Hpl).
  exists w', out, l. rewrite Hl, Hpl. cbn [data Torch.item nth].
  rewrite sigmoid_R_0. repeat split; auto.
  rewrite !dropout_reg_at_entropy, neg_entropy_half.
  pose proof (neg_entropy_nonpos (1 / 10)) as Hneg.
  pose proof (ln_le_minus_1 2) as Hln2.
  unfold weights_reg_at. cbn [INR]. lra.
Qed.


(** ** Construction: the initial dropout probability *)

Lemma sigmoid_R_increasing (u v : R) :
  u < v -> Torch.sigmoid_R u < Torch.sigmoid_R v.
Proof.
  intros Huv. unfold Torch.sigmoid_R, Rdiv. rewrite !Rmult_1_l.
  pose proof (exp_pos (- u)). pose proof (exp_pos (- v)).
  apply Rinv_lt_contravar; [nra|].
  apply Rplus_lt_compat_l. apply exp_increasing. lra.
Qed.

Lemma sigmoid_R_monotone (u v : R) :
  u <= v -> Torch.sigmoid_R u <= Torch.sigmoid_R v.
Proof.
  intros [Huv| ->]; [left; now apply sigmoid_R_increasing|right; reflexivity].
Qed.

Lemma logit_increasing (a b : R) :
  0 < a -> a < b -> b < 1 -> logit a < logit b.
Proof.
  intros Ha Hab Hb. unfold logit.
  assert (ln a < ln b) by (apply ln_increasing; lra).
  assert (ln (1 - b) < ln (1 - a)) by (apply ln_increasing; lra).
  lra.
Qed.

Lemma sigmoid_R_of_logit (q : R) : 0 < q < 1 -> Torch.sigmoid_R (logit q) = q.
Proof. exact (sigmoid_R_logit q). Qed.

(** X1.  With equal bounds, the default, the parameter is the logit of the
    bound and [p] is the bound itself, whatever the generator draws. *)
Theorem init_equal_bounds (q wr dr tmp : R) (mc : bool) (w : World) :
  0 < q < 1 ->
  exists w',
    __init__ wr dr q q tmp mc w = (w', inr tt) /\
    p_logit_tensor w' = mkTensor float32 [1%nat] [logit q] /\
    p_tensor w' = mkTensor float32 [1%nat] [q] /\
    regularisation (self w') = Num 0 /\
    training (self w') = true.
Proof.
  intros Hq. destruct w as [h s g n].
  eexists. split; [apply init_run; lra|].
  unfold p_logit_tensor, p_tensor; cbn [heap self p p_logit regularisation training].
  rewrite lookup_new, (lookup_offset h _ 1). cbn [nth].
  replace (ln q - ln (1 - q) + g n * (ln q - ln (1 - q) - (ln q - ln (1 - q))))
    with (logit q) by (unfold logit; ring).
  rewrite sigmoid_R_of_logit by exact Hq. auto.
Qed.

Lemma init_equal_bounds_witness :
  exists w',
    __init__ 1 1 (1 / 10) (1 / 10) (1 / 10) false base_world = (w', inr tt) /\
    p_tensor w' = mkTensor float32 [1%nat] [1 / 10].
Proof.
  destruct (init_equal_bounds (1 / 10) 1 1 (1 / 10) false base_world
              ltac:(lra)) as (w' & Hrun & _ & Hp & _).
  exists w'. split; [exact Hrun|exact Hp].
Defined.

(** X2.  With bounds in (0, 1) in order and a draw in [0, 1), the initial [p]
    lies between the bounds and is the sigmoid of the parameter. *)
Theorem init_p_between_bounds (imin imax wr dr tmp : R) (mc : bool) (w : World) :
  0 < imin -> imin <= imax -> imax < 1 ->
  0 <= rng w (rng_pos w) < 1 ->
  exists w',
    __init__ wr dr imin imax tmp mc w = (w', inr tt) /\
    logit imin <= Torch.item (p_logit_tensor w') <= logit imax /\
    Torch.item (p_tensor w') = Torch.sigmoid_R (Torch.item (p_logit_tensor w')) /\
    imin <= Torch.item (p_tensor w') <= imax.
Proof.
  intros Hmin Hle Hmax Hu. destruct w as [h s g n]. cbn [rng rng_pos] in Hu.
  assert (Hl : logit imin <= logit imax).
  { destruct Hle as [Hlt| ->]; [left; now apply logit_increasing|right; reflexivity]. }
  eexists. split; [apply init_run; exact Hl|].
  unfold p_logit_tensor, p_tensor; cbn [heap self p p_logit].
  rewrite lookup_new, (lookup_offset h _ 1). cbn [nth Torch.item data].
  fold (logit imin) (logit imax).
  assert (Hb : logit imin <= logit imin + g n * (logit imax - logit imin)
               <= logit imax) by nra.
  split; [exact Hb|]. split; [reflexivity|].
  rewrite <- (sigmoid_R_of_logit imin) at 1 by lra.
  rewrite <- (sigmoid_R_of_logit imax) at 3 by lra.
  split; apply sigmoid_R_monotone; apply Hb.
Qed.

Lemma init_p_between_bounds_witness :
  exists w',
    __init__ 1 1 (1 / 10) (1 / 2) (1 / 10) false base_world = (w', inr tt) /\
    1 / 10 <= Torch.item (p_tensor w') <= 1 / 2.
Proof.
  destruct (init_p_between_bounds (1 / 10) (1 / 2) 1 1 (1 / 10) false base_world)
    as (w' & Hrun & _ & _ & Hp); cbn; try lra.
  exists w'. split; [exact Hrun|exact Hp].
Defined.

(** X3.  With the bounds in (0, 1) in the wrong order, [uniform_] raises
    [RuntimeError] on line 47 and nothing is drawn.  The statements before
    that line have run: the module is in training mode and the two
    regularisers are set.  Those from line 47 on have not: [p_logit], [p],
    [temperature], [mc_dropout] and [regularisation] are not assigned. *)
Theorem init_reversed_bounds_raise (imin imax wr dr tmp : R) (mc : bool)
    (w : World) :
  0 < imax -> imax < imin -> imin < 1 ->
  let w' := fst (__init__ wr dr imin imax tmp mc w) in
  snd (__init__ wr dr imin imax tmp mc w) = inl RuntimeError /\
  rng_pos w' = rng_pos w /\
  training (self w') = true /\
  weight_regulariser (self w') = wr /\
  dropout_regulariser (self w') = dr /\
  p_logit (self w') = p_logit (self w) /\
  p (self w') = p (self w) /\
  temperature (self w') = temperature (self w) /\
  mc_dropout (self w') = mc_dropout (self w) /\
  regularisation (self w') = regularisation (self w) /\
  forall l, (l < length (heap w))%nat ->
            lookup (heap w') l = lookup (heap w) l.
Proof.
  intros H0 Hlt H1. destruct w as [h s g n].
  rewrite init_raises by now apply (logit_increasing imax imin).
  cbn. repeat split; auto.
  intros l Hl. now apply lookup_old.
Qed.

Lemma init_reversed_bounds_raise_witness :
  snd (__init__ 3 4 (1 / 2) (1 / 10) (1 / 10) false base_world)
  = inl RuntimeError /\
  weight_regulariser
    (self (fst (__init__ 3 4 (1 / 2) (1 / 10) (1 / 10) false base_world))) = 3 /\
  temperature
    (self (fst (__init__ 3 4 (1 / 2) (1 / 10) (1 / 7) false base_world)))
  = 1 / 10.
Proof.
  split; [|split].
  - apply (init_reversed_bounds_raise (1 / 2) (1 / 10) 3 4 (1 / 10) false
             base_world); lra.
  - apply (init_reversed_bounds_raise (1 / 2) (1 / 10) 3 4 (1 / 10) false
             base_world); lra.
  - apply (init_reversed_bounds_raise (1 / 2) (1 / 10) 3 4 (1 / 7) false
             base_world); lra.
Defined.

(** ** The mask of the dropout transform *)

Lemma finfo_eps_pos (d : Dtype) : 0 < Torch.finfo_eps d.
Proof.
  destruct d; cbn [Torch.finfo_eps]; apply Rinv_0_lt_compat; apply pow_lt; lra.
Qed.

Lemma dropout_element_mask (pv eps xi ui : R) :
  dropout_element pv eps xi ui = xi * dropout_mask pv eps ui / (1 - pv).
Proof. reflexivity. Qed.

Lemma dropout_mask_range (pv eps ui : R) : 0 < dropout_mask pv eps ui < 1.
Proof.
  unfold dropout_mask.
  match goal with |- context [Torch.sigmoid_R ?v] =>
    pose proof (sigmoid_R_range v) end.
  lra.
Qed.

(** X4.  The mask lies between 0 and 1, a larger uniform draw never gives a
    larger mask, and neither does a larger [p]: [p] is the probability of
    dropping an element, and [1 - p], by which line 125 divides, that of
    retaining it.  The bounds and the two comparisons are not strict, and
    [p] ranges over the closed interval: rounded to float32 the mask is
    exactly 1 or exactly 0 on a part of the range, and [p] can be. *)
Theorem dropout_mask_monotone (d : Dtype) :
  let eps := Torch.finfo_eps d in
  (forall pv xi ui,
      dropout_element pv eps xi ui = xi * dropout_mask pv eps ui / (1 - pv)) /\
  (forall pv ui, 0 <= dropout_mask pv eps ui <= 1) /\
  (forall pv u1 u2, 0 <= u1 -> u1 <= u2 -> u2 <= 1 ->
      dropout_mask pv eps u2 <= dropout_mask pv eps u1) /\
  (forall ui p1 p2, 0 <= p1 -> p1 <= p2 -> p2 <= 1 ->
      dropout_mask p2 eps ui <= dropout_mask p1 eps ui).
Proof.
  intros eps. pose proof (finfo_eps_pos d) as He. fold eps in He.
  assert (Hln : forall a b, 0 < a -> a <= b -> ln a <= ln b).
  { intros a b Ha [Hab| ->]; [left; apply ln_increasing; lra|right; reflexivity]. }
  split; [intros; apply dropout_element_mask|].
  split; [intros pv ui; pose proof (dropout_mask_range pv eps ui); lra|].
  split.
  - intros pv u1 u2 H0 H12 H1. unfold dropout_mask.
    apply Rplus_le_compat_l, Ropp_le_contravar, sigmoid_R_monotone.
    assert (ln (u1 + eps) <= ln (u2 + eps)) by (apply Hln; lra).
    assert (ln (1 - u2 + eps) <= ln (1 - u1 + eps)) by (apply Hln; lra).
    apply Rmult_le_compat_r; [lra|]. lra.
  - intros ui p1 p2 H0 H12 H1. unfold dropout_mask.
    apply Rplus_le_compat_l, Ropp_le_contravar, sigmoid_R_monotone.
    assert (ln (p1 + eps) <= ln (p2 + eps)) by (apply Hln; lra).
    assert (ln (1 - p2 + eps) <= ln (1 - p1 + eps)) by (apply Hln; lra).
    apply Rmult_le_compat_r; [lra|]. lra.
Qed.

Lemma dropout_mask_monotone_witness :
  dropout_mask (1 / 2) (Torch.finfo_eps float32) (3 / 4)
  <= dropout_mask (1 / 2) (Torch.finfo_eps float32) (1 / 4).
Proof.
  apply (proj1 (proj2 (proj2 (dropout_mask_monotone float32)))); lra.
Defined.


(** X6.  What [_concrete_dropout] does to the state, on an input with at least
    one dimension: it returns a new tensor object with as many elements as
    its shape says, leaves every object that existed, [x] among them, as it
    was, takes one draw per element of [x], and rebinds [p] to a new
    one-element tensor holding the sigmoid of [p_logit]. *)
Theorem concrete_dropout_effects (x : loc) (layer : Layer) (w : World) :
  ready w x layer ->
  shape (lookup (heap w) x) <> [] ->
  exists w' out,
    _concrete_dropout x w = (w', inr out) /\
    (length (heap w) <= out < length (heap w'))%nat /\
    well_shaped (lookup (heap w') out) /\
    (forall l, (l < length (heap w))%nat ->
               lookup (heap w') l = lookup (heap w) l) /\
    rng_pos w' = (rng_pos w + Torch.numel (lookup (heap w) x))%nat /\
    self w' = with_p (length (heap w)) (self w) /\
    p_tensor w' =
      mkTensor (dtype (p_logit_tensor w)) [1%nat]
        [Torch.sigmoid_R (Torch.item (p_logit_tensor w))].
Proof.
  intros [Hx Hpl Hp Hps Hxw Hpl1 Hp1] Hne.
  destruct w as [h s g n]; cbn [heap self rng rng_pos] in *.
  unfold p_logit_tensor in *; cbn [heap self] in *.
  apply one_element_eq in Hpl1.
  destruct (concrete_dropout_run h s g n x _ _ Hx Hpl Hpl1 Hne Hxw)
    as (ext & Hrun & Hext).
  destruct ext as [|e1 [|e2 [|e3 [|e4 [|e5 [|e6 ext]]]]]]; try discriminate.
  eexists _, _. split; [exact Hrun|].
  cbn [heap self rng_pos].
  split; [rewrite length_app; cbn; lia|].
  split.
  { rewrite lookup_offset. cbn [nth app]. unfold well_shaped, Torch.numel.
    cbn [data shape]. rewrite map2_length, !length_map, length_seq.
    unfold well_shaped, Torch.numel in Hxw. rewrite Hxw. apply Nat.min_id. }
  split; [intros l Hl; now apply lookup_old|].
  split; [reflexivity|]. split; [reflexivity|].
  unfold p_tensor. cbn [heap self p with_p]. apply lookup_new.
Qed.

Lemma concrete_dropout_effects_witness :
  exists w' out,
    _concrete_dropout 0%nat (example_world true) = (w', inr out) /\
    rng_pos w' = 4%nat.
Proof.
  destruct (concrete_dropout_effects 0%nat example_layer (example_world true)
              (example_ready true) ltac:(discriminate))
    as (w' & out & Hrun & _ & _ & _ & Hn & _).
  exists w', out. split; [exact Hrun|exact Hn].
Defined.



(** ** Calls of [forward] that return *)



(** A call on a ready state, with a layer that does not raise and an
    input with a first sample, returns; the regularisation it stores is a
    new one-element tensor computed from the [p] it leaves. *)
Lemma forward_returns (w : World) (x : loc) (layer : Layer) (x0 : Tensor) :
  ready w x layer -> total_layer layer ->
  Torch.getitem0 (lookup (heap w) x) = inr x0 ->
  exists w' out l,
    forward x layer w = (w', inr out) /\
    regularisation (self w') = Ref l /\
    lookup (heap w') l =
      mkTensor (dtype (p_tensor w')) [1%nat]
        [weights_reg_at (weight_regulariser (self w))
           (sum_of_squares_of (map (lookup (heap w)) (parameters layer)))
           (Torch.item (p_tensor w'))
         + dropout_reg_at (dropout_regulariser (self w)) (Torch.numel x0)
             (Torch.item (p_tensor w'))] /\
    p_tensor w' =
      (if training (self w) || mc_dropout (self w)
       then mkTensor (dtype (p_logit_tensor w)) [1%nat]
              [Torch.sigmoid_R (Torch.item (p_logit_tensor w))]
       else p_tensor w) /\
    rng_pos w' =
      (if training (self w) || mc_dropout (self w)
       then (rng_pos w + Torch.numel (lookup (heap w) x))%nat
       else rng_pos w).
Proof.
  intros Hready Htotal Hx0.
  destruct (training (self w) || mc_dropout (self w)) eqn:Hmode.
  - destruct (Htotal (map (lookup (heap w)) (parameters layer))
                (mkTensor
                   (Torch.promote_types (dtype (p_logit_tensor w))
                      (dtype (lookup (heap w) x)))
                   (shape (lookup (heap w) x))
                   (Torch.map2
                      (dropout_element
                         (Torch.sigmoid_R (Torch.item (p_logit_tensor w)))
                         (Torch.finfo_eps (dtype (lookup (heap w) x))))
                      (data (lookup (heap w) x))
                      (map (rng w)
                         (seq (rng_pos w)
                            (Torch.numel (lookup (heap w) x)))))))
      as [r Hfn].
    destruct (forward_run_dropout w x layer x0 r Hready Hmode Hx0 Hfn)
      as (w' & out & l & Hrun & _ & Hreg & Hl & Hp & Hn & _).
    exists w', out, l. rewrite Hp. cbn [dtype Torch.item data nth].
    repeat split; auto.
  - apply orb_false_iff in Hmode as [Ht Hm].
    destruct (Htotal (map (lookup (heap w)) (parameters layer))
                (lookup (heap w) x)) as [r Hfn].
    destruct (forward_run_bypass w x layer x0 r Hready Ht Hm Hx0 Hfn)
      as (w' & out & l & Hrun & _ & Hself & Hl & Hn & _ & Hframe).
    assert (Hp : p_tensor w' = p_tensor w).
    { unfold p_tensor. rewrite Hself. cbn [p with_regularisation].
      apply Hframe. apply Hready. }
    exists w', out, l. rewrite Hp, Hself. repeat split; auto.
Qed.

Lemma regularisation_item_ref (w : World) (l : loc) (d : Dtype) (v : R) :
  regularisation (self w) = Ref l ->
  lookup (heap w) l = mkTensor d [1%nat] [v] ->
  regularisation_item w = v.
Proof. intros Hr Hl. unfold regularisation_item. now rewrite Hr, Hl. Qed.

Lemma example_layer_total : total_layer example_layer.
Proof. intros ps t. now exists t. Qed.


(** X8.  In training mode or with [mc_dropout], a returning call leaves
    [p = sigmoid(p_logit)] and
    [regularisation = weight_regulariser * sum_of_squares / (1 - p)
     + dropout_regulariser * x[0].numel() * (p*log(p) + (1-p)*log(1-p))]. *)
Theorem forward_training_regularisation (x : loc) (layer : Layer) (w : World)
    (x0 : Tensor) :
  ready w x layer -> total_layer layer ->
  training (self w) || mc_dropout (self w) = true ->
  Torch.getitem0 (lookup (heap w) x) = inr x0 ->
  let pv := Torch.sigmoid_R (Torch.item (p_logit_tensor w)) in
  let sum_of_squares :=
    sum_of_squares_of (map (lookup (heap w)) (parameters layer)) in
  exists w' out,
    forward x layer w = (w', inr out) /\
    Torch.item (p_tensor w') = pv /\
    regularisation_item w' =
      weight_regulariser (self w) * sum_of_squares / (1 - pv)
      + dropout_regulariser (self w) * INR (Torch.numel x0)
        * (pv * ln pv + (1 - pv) * ln (1 - pv)).
Proof.
  intros Hready Htotal Hmode Hx0 pv sos.
  destruct (forward_returns w x layer x0 Hready Htotal Hx0)
    as (w' & out & l & Hrun & Hreg & Hl & Hp & _).
  rewrite Hmode in Hp. rewrite Hp in Hl. cbn [dtype Torch.item data nth] in Hl.
  exists w', out. split; [exact Hrun|]. split; [now rewrite Hp|].
  rewrite (regularisation_item_ref w' l _ _ Hreg Hl).
  unfold weights_reg_at, dropout_reg_at. fold pv sos. ring.
Qed.

Lemma forward_training_regularisation_witness :
  exists w' out,
    forward 0%nat example_layer (example_world true) = (w', inr out) /\
    Torch.item (p_tensor w') = Torch.sigmoid_R 0.
Proof.
  destruct (forward_training_regularisation 0%nat example_layer
              (example_world true) (mkTensor float32 [2%nat] [1; 2])
              (example_ready true) example_layer_total eq_refl eq_refl)
    as (w' & out & Hrun & Hp & _).
  exists w', out. split; [exact Hrun|exact Hp].
Defined.

(** X9.  After every returning call, in either mode, the stored regularisation
    is the value of the two terms at the stored [p]; outside training and
    without [mc_dropout] that [p] is the tensor stored before the call. *)
Theorem forward_regularisation_matches_p (x : loc) (layer : Layer) (w : World)
    (x0 : Tensor) :
  ready w x layer -> total_layer layer ->
  Torch.getitem0 (lookup (heap w) x) = inr x0 ->
  exists w' out,
    forward x layer w = (w', inr out) /\
    regularisation_item w' =
      weights_reg_at (weight_regulariser (self w))
        (sum_of_squares_of (map (lookup (heap w)) (parameters layer)))
        (Torch.item (p_tensor w'))
      + dropout_reg_at (dropout_regulariser (self w)) (Torch.numel x0)
          (Torch.item (p_tensor w')) /\
    (training (self w) || mc_dropout (self w) = false ->
     p_tensor w' = p_tensor w).
Proof.
  intros Hready Htotal Hx0.
  destruct (forward_returns w x layer x0 Hready Htotal Hx0)
    as (w' & out & l & Hrun & Hreg & Hl & Hp & _).
  exists w', out. split; [exact Hrun|]. split.
  - exact (regularisation_item_ref w' l _ _ Hreg Hl).
  - intros Hmode. now rewrite Hmode in Hp.
Qed.

Lemma forward_regularisation_matches_p_witness :
  exists w' out,
    forward 0%nat example_layer (example_world false) = (w', inr out) /\
    p_tensor w' = p_tensor (example_world false).
Proof.
  destruct (forward_regularisation_matches_p 0%nat example_layer
              (example_world false) (mkTensor float32 [2%nat] [1; 2])
              (example_ready false) example_layer_total eq_refl)
    as (w' & out & Hrun & _ & Hp).
  exists w', out. split; [exact Hrun|exact (Hp eq_refl)].
Defined.






(** ** Calls of [forward], returning or raising *)

(** X12.  For a 0-dim input [forward] raises: [x[0]] does not exist. *)
Theorem forward_scalar_input_raises (x : loc) (layer : Layer) (w : World) :
  (x < length (heap w))%nat ->
  shape (lookup (heap w) x) = [] ->
  exists e, snd (forward x layer w) = inl e.
Proof.
  intros Hx Hs.
  destruct (safe_forward (length (heap w)) w x layer w
              (preserved_refl false false w)) as [_ Hret].
  destruct (snd (forward x layer w)) as [e|out].
  - now exists e.
  - destruct (Hret out eq_refl Hx) as [x0 Hx0].
    unfold Torch.getitem0 in Hx0. rewrite Hs in Hx0. discriminate.
Qed.

Lemma forward_scalar_input_raises_witness :
  exists e, snd (forward 0%nat example_layer scalar_world) = inl e.
Proof.
  apply (forward_scalar_input_raises 0%nat example_layer scalar_world);
    cbn; [lia|reflexivity].
Defined.

(** X13.  A ready state is ready after a call of [forward], whether the call
    returned or raised: the references stay live, the input and [p_logit]
    hold what they held, and [p] is a one-element tensor.  So calls can
    follow one another, also after an exception. *)
Theorem forward_keeps_ready (x : loc) (layer : Layer) (w : World) :
  ready w x layer -> ready (fst (forward x layer w)) x layer.
Proof.
  intros [Hx Hpl Hp Hps Hxw Hpl1 Hp1].
  destruct (training (self w) || mc_dropout (self w)) eqn:Hmode.
  - rewrite forward_with_dropout by exact Hmode.
    set (w1 := after_set_p w). set (c := bind _ _).
    assert (Hsafe : safe true false (length (heap w1)) w1 c (fun _ => True)).
    { unfold c. eapply safe_bind; [apply safe_dropout_rest|]. intros xd _.
      eapply safe_weaken; [apply safe_call_and_regularise|auto]. }
    destruct (Hsafe w1 (preserved_refl true false w1))
      as [(Hlen & Hlk & Hc & _ & Hkp & _) _].
    specialize (Hkp eq_refl).
    set (w' := fst (c w1)) in *.
    assert (Hlen1 : length (heap w1) = S (length (heap w))).
    { unfold w1, after_set_p; cbn [heap]. rewrite length_app. cbn. lia. }
    assert (Hold : forall l, (l < length (heap w))%nat ->
                     lookup (heap w') l = lookup (heap w) l).
    { intros l Hl. rewrite Hlk by lia. unfold w1, after_set_p; cbn [heap].
      now apply lookup_old. }
    assert (Hplr : p_logit (self w') = p_logit (self w)).
    { destruct Hc as (_ & _ & Hc & _). rewrite Hc. reflexivity. }
    assert (Hpr : p (self w') = length (heap w)).
    { rewrite Hkp. reflexivity. }
    assert (Hpt : p_tensor w' = Torch.sigmoid (p_logit_tensor w)).
    { unfold p_tensor. rewrite Hpr, Hlk by lia.
      unfold w1, after_set_p; cbn [heap]. apply lookup_new. }
    constructor.
    + lia.
    + rewrite Hplr. lia.
    + rewrite Hpr. lia.
    + eapply Forall_impl; [|exact Hps]. cbn. intros; lia.
    + now rewrite Hold.
    + unfold p_logit_tensor. rewrite Hplr, Hold by lia. exact Hpl1.
    + rewrite Hpt.
      unfold Torch.sigmoid, Torch.pointwise, one_element; cbn [shape data].
      rewrite length_map. exact Hpl1.
  - apply orb_false_iff in Hmode as [Ht Hm].
    rewrite forward_without_dropout by assumption.
    destruct (safe_call_and_regularise true false (length (heap w)) w layer
                x x w (preserved_refl true false w))
      as [(Hlen & Hlk & Hc & _ & Hkp & _) _].
    specialize (Hkp eq_refl).
    set (w' := fst _) in *.
    assert (Hplr : p_logit (self w') = p_logit (self w)).
    { destruct Hc as (_ & _ & Hc & _). exact Hc. }
    constructor.
    + lia.
    + rewrite Hplr. lia.
    + rewrite Hkp. lia.
    + eapply Forall_impl; [|exact Hps]. cbn. intros; lia.
    + now rewrite Hlk.
    + unfold p_logit_tensor. rewrite Hplr, Hlk by lia. exact Hpl1.
    + unfold p_tensor. rewrite Hkp, Hlk by lia. exact Hp1.
Qed.

Lemma forward_keeps_ready_witness :
  ready (fst (forward 0%nat example_layer empty_batch_world)) 0%nat
    example_layer.
Proof.
  apply (forward_keeps_ready 0%nat example_layer empty_batch_world).
  constructor; cbn; try lia.
  - repeat constructor.
  - reflexivity.
  - split; reflexivity.
  - split; reflexivity.
Defined.

(** ** The transform on a 0-dim input *)

(** X7.  On a 0-dim input the result of [_concrete_dropout] does not have the
    shape of [x]: broadcasting against the [[1]]-shaped [p] gives a tensor
    of shape [[1]], of the dtype of [p_logit], holding the transformed
    element. *)
Theorem concrete_dropout_scalar_input (x : loc) (layer : Layer) (w : World) :
  ready w x layer ->
  shape (lookup (heap w) x) = [] ->
  exists w' out,
    _concrete_dropout x w = (w', inr out) /\
    lookup (heap w') out =
      mkTensor (dtype (p_logit_tensor w)) [1%nat]
        [dropout_element (Torch.sigmoid_R (Torch.item (p_logit_tensor w)))
           (Torch.finfo_eps (dtype (lookup (heap w) x)))
           (Torch.item (lookup (heap w) x))
           (rng w (rng_pos w))].
Proof.
  intros [Hx Hpl Hp Hps Hxw Hpl1 Hp1] Hs.
  destruct w as [h s g n]; cbn [heap self rng rng_pos] in *.
  unfold p_logit_tensor in *; cbn [heap self] in *.
  apply one_element_eq in Hpl1.
  set (dp := dtype (lookup h (p_logit s))) in *.
  set (lv := Torch.item (lookup h (p_logit s))) in *.
  assert (Hxv : exists dx v, lookup h x = mkTensor dx [] [v]).
  { unfold well_shaped, Torch.numel in Hxw. rewrite Hs in Hxw.
    destruct (lookup h x) as [dx sx xs]; cbn in *. subst sx.
    destruct xs as [|v [|v' xs]]; try discriminate. now exists dx, v. }
  destruct Hxv as (dx & v & Hxv).
  unfold _concrete_dropout. run. rewrite Hpl1, Hxv.
  repeat progress (heap_simpl; rewrite ?Hpl1, ?Hxv; cbn).
  world_simpl. unfold ret. rewrite !promote_types_idem.
  eexists _, _. split; [reflexivity|].
  cbn [heap]. rewrite (lookup_offset h _ 6). reflexivity.
Qed.

Lemma concrete_dropout_scalar_input_witness :
  exists w' out,
    _concrete_dropout 0%nat scalar_world = (w', inr out) /\
    shape (lookup (heap w') out) = [1%nat].
Proof.
  destruct (concrete_dropout_scalar_input 0%nat example_layer scalar_world)
    as (w' & out & Hrun & Hout).
  - constructor; cbn; try lia.
    + repeat constructor.
    + reflexivity.
    + split; reflexivity.
    + split; reflexivity.
  - reflexivity.
  - exists w', out. split; [exact Hrun|]. rewrite Hout. reflexivity.
Defined.

(** ** The two flags of line 74 *)

Section Commutes.
Variables (tr mc : bool).

Lemma commutes_ret {A} (a : A) : commutes (set_mode tr mc) (ret a).
Proof. intros w. reflexivity. Qed.

Lemma commutes_raise {A} (e : Exception) :
  commutes (set_mode tr mc) (@raise A e).
Proof. intros w. reflexivity. Qed.

Lemma commutes_lift {A} (r : Exception + A) :
  commutes (set_mode tr mc) (lift r).
Proof. intros w. reflexivity. Qed.

Lemma commutes_bind {A B} (c : M A) (k : A -> M B) :
  commutes (set_mode tr mc) c ->
  (forall a, commutes (set_mode tr mc) (k a)) ->
  commutes (set_mode tr mc) (bind c k).
Proof.
  intros Hc Hk w. unfold bind. rewrite (Hc w).
  destruct (c w) as [w' [e|a]]; cbn [fst snd]; [reflexivity|apply Hk].
Qed.

Lemma commutes_load (l : loc) : commutes (set_mode tr mc) (load l).
Proof. intros w. reflexivity. Qed.

Lemma commutes_alloc (t : Tensor) : commutes (set_mode tr mc) (alloc t).
Proof. intros w. reflexivity. Qed.

Lemma commutes_store (l : loc) (t : Tensor) :
  commutes (set_mode tr mc) (store l t).
Proof. intros w. reflexivity. Qed.

Lemma commutes_getattr {A} (field : ConcreteDropout -> A) :
  (forall s, field (with_mode tr mc s) = field s) ->
  commutes (set_mode tr mc) (getattr field).
Proof.
  intros Hf w. unfold getattr, set_mode. cbn [self set_self fst snd].
  now rewrite Hf.
Qed.

Lemma commutes_setattr_p (l : loc) : commutes (set_mode tr mc) (setattr_p l).
Proof. intros w. reflexivity. Qed.

Lemma commutes_setattr_regularisation (v : var) :
  commutes (set_mode tr mc) (setattr_regularisation v).
Proof. intros w. reflexivity. Qed.

Lemma commutes_self_p : commutes (set_mode tr mc) self_p.
Proof. intros w. reflexivity. Qed.

Lemma commutes_rand_like (t : Tensor) :
  commutes (set_mode tr mc) (rand_like t).
Proof. intros w. reflexivity. Qed.

Lemma commutes_read (v : var) : commutes (set_mode tr mc) (read v).
Proof. intros w. destruct v; reflexivity. Qed.

Lemma commutes_bind_name (v : value) : commutes (set_mode tr mc) (bind_name v).
Proof. intros w. destruct v; reflexivity. Qed.

Lemma commutes_augmented (f : R -> R -> R) (name : var) (rhs : value) :
  commutes (set_mode tr mc) (augmented f name rhs).
Proof.
  destruct name as [r|l]; cbn [augmented].
  - apply commutes_bind; [apply commutes_lift|]. intros; apply commutes_bind_name.
  - apply commutes_bind; [apply commutes_load|]. intros t.
    apply commutes_bind; [apply commutes_lift|]. intros [r|r].
    + apply commutes_raise.
    + destruct (Torch.shape_eqb (shape r) (shape t)).
      * apply commutes_bind; [apply commutes_store|].
        intros; apply commutes_ret.
      * apply commutes_raise.
Qed.

Lemma commutes_call (layer : Layer) (x : loc) :
  commutes (set_mode tr mc) (call layer x).
Proof.
  unfold call. apply commutes_bind; [intros w; reflexivity|]. intros ps.
  apply commutes_bind; [apply commutes_load|]. intros xv.
  apply commutes_bind; [apply commutes_lift|]. intros r.
  apply commutes_alloc.
Qed.

Lemma commutes_sum_squares (params : list loc) :
  forall acc, commutes (set_mode tr mc) (sum_squares params acc).
Proof.
  induction params as [|param rest IH]; intros acc; cbn [sum_squares].
  - apply commutes_ret.
  - apply commutes_bind; [apply commutes_load|]. intros pv.
    apply commutes_bind; [apply commutes_augmented|]. exact IH.
Qed.

Lemma commutes_forward_rest (x output : loc) (acc : var) :
  commutes (set_mode tr mc) (forward_rest x output acc).
Proof.
  unfold forward_rest.
  repeat first
    [ apply commutes_ret
    | apply commutes_bind;
      [ first [ apply commutes_self_p | apply commutes_lift
              | apply commutes_read | apply commutes_bind_name
              | apply commutes_alloc | apply commutes_load
              | apply commutes_augmented
              | apply commutes_setattr_regularisation
              | apply commutes_getattr; intros s; reflexivity ]
      | intros ? ] ].
Qed.

Lemma commutes_dropout_rest (x : loc) (eps : R) :
  commutes (set_mode tr mc) (dropout_rest x eps).
Proof.
  unfold dropout_rest.
  repeat first
    [ apply commutes_ret
    | apply commutes_bind;
      [ first [ apply commutes_self_p | apply commutes_lift
              | apply commutes_alloc | apply commutes_load
              | apply commutes_rand_like ]
      | intros ? ] ].
Qed.

(** The part of [forward] below line 74, on the path with dropout, does
    not look at the two flags. *)
Lemma commutes_dropout_path (x : loc) (layer : Layer) (eps : R) :
  commutes (set_mode tr mc)
    (xd <- dropout_rest x eps ;;
     output <- call layer xd ;;
     sum_of_squares <- sum_squares (parameters layer) (Num 0) ;;
     forward_rest x output sum_of_squares).
Proof.
  apply commutes_bind; [apply commutes_dropout_rest|]. intros xd.
  apply commutes_bind; [apply commutes_call|]. intros output.
  apply commutes_bind; [apply commutes_sum_squares|]. intros acc.
  apply commutes_forward_rest.
Qed.
End Commutes.

(** X14.  With [mc_dropout] set, a call outside training does what the call in
    training mode does: whenever [training or mc_dropout] holds, the
    outcome, the store, the generator's position and the attributes [p]
    and [regularisation] after the call do not depend on which of the two
    flags is set. *)
Theorem mc_dropout_as_training (x : loc) (layer : Layer) (w : World)
    (tr1 mc1 tr2 mc2 : bool) :
  tr1 || mc1 = true -> tr2 || mc2 = true ->
  let r1 := forward x layer (set_mode tr1 mc1 w) in
  let r2 := forward x layer (set_mode tr2 mc2 w) in
  snd r1 = snd r2 /\
  heap (fst r1) = heap (fst r2) /\
  rng_pos (fst r1) = rng_pos (fst r2) /\
  p (self (fst r1)) = p (self (fst r2)) /\
  regularisation (self (fst r1)) = regularisation (self (fst r2)).
Proof.
  intros H1 H2.
  assert (Hrun : forall tr mc, tr || mc = true ->
            forward x layer (set_mode tr mc w) =
            (set_mode tr mc
               (fst ((xd <- dropout_rest x
                             (Torch.finfo_eps (dtype (lookup (heap w) x))) ;;
                      output <- call layer xd ;;
                      sum_of_squares <- sum_squares (parameters layer) (Num 0) ;;
                      forward_rest x output sum_of_squares) (after_set_p w))),
             snd ((xd <- dropout_rest x
                            (Torch.finfo_eps (dtype (lookup (heap w) x))) ;;
                   output <- call layer xd ;;
                   sum_of_squares <- sum_squares (parameters layer) (Num 0) ;;
                   forward_rest x output sum_of_squares) (after_set_p w)))).
  { intros tr mc H. rewrite forward_with_dropout by exact H.
    change (after_set_p (set_mode tr mc w)) with (set_mode tr mc (after_set_p w)).
    change (heap (set_mode tr mc w)) with (heap w).
    apply commutes_dropout_path. }
  cbn zeta. rewrite (Hrun tr1 mc1 H1), (Hrun tr2 mc2 H2).
  cbn [fst snd]. repeat split.
Qed.

Lemma mc_dropout_as_training_witness :
  snd (forward 0%nat example_layer (set_mode false true (example_world true)))
  = snd (forward 0%nat example_layer (set_mode true false (example_world true))).
Proof.
  apply (mc_dropout_as_training 0%nat example_layer (example_world true)
           false true true false eq_refl eq_refl).
Defined.

(** ** An exception of the layer *)

(** X15.  When the layer raises on the input it is given, [forward] raises the
    same exception and the attribute [regularisation] keeps the value of
    the previous call; in training mode or with [mc_dropout] the draws
    have been made and [p] has been recomputed by then. *)
Theorem forward_layer_exception (x : loc) (layer : Layer) (w : World)
    (e : Exception) :
  ready w x layer ->
  shape (lookup (heap w) x) <> [] ->
  (forall ps t, fn layer ps t = inl e) ->
  exists w',
    forward x layer w = (w', inl e) /\
    regularisation (self w') = regularisation (self w) /\
    rng_pos w' =
      (if training (self w) || mc_dropout (self w)
       then (rng_pos w + Torch.numel (lookup (heap w) x))%nat
       else rng_pos w) /\
    p_tensor w' =
      (if training (self w) || mc_dropout (self w)
       then Torch.sigmoid (p_logit_tensor w)
       else p_tensor w).
Proof.
  intros Hready Hne Hfn.
  destruct (training (self w) || mc_dropout (self w)) eqn:Hmode.
  - destruct Hready as [Hx Hpl Hp Hps Hxw Hpl1 Hp1].
    destruct w as [h s g n]; cbn [heap self rng rng_pos] in *.
    unfold p_logit_tensor in *; cbn [heap self] in *.
    pose proof (one_element_eq _ Hpl1) as Hpl2.
    destruct (concrete_dropout_run h s g n x _ _ Hx Hpl Hpl2 Hne Hxw)
      as (ext & Hrun & Hext).
    eexists. split; [|split; [|split]].
    + rewrite forward_unfold. unfold bind at 1 2. unfold getattr.
      cbn [fst snd self]. rewrite Hmode. rewrite bind_assoc.
      rewrite (bind_returns _ _ _ _ _ Hrun).
      unfold bind at 1. unfold call. run. rewrite Hfn. reflexivity.
    + reflexivity.
    + reflexivity.
    + unfold p_tensor. cbn [heap self p with_p]. rewrite lookup_new.
      rewrite Hpl2 at 3. reflexivity.
  - apply orb_false_iff in Hmode as [Ht Hm].
    exists w. split; [|auto].
    apply forward_bypass_raises; auto.
Qed.

(** A layer that rejects every input. *)
Lemma forward_layer_exception_witness :
  exists w',
    forward 0%nat (mkLayer [1%nat] (fun _ _ => inl TypeError))
      (example_world true) = (w', inl TypeError) /\
    regularisation (self w') = Num 0.
Proof.
  destruct (forward_layer_exception 0%nat
              (mkLayer [1%nat] (fun _ _ => inl TypeError))
              (example_world true) TypeError)
    as (w' & Hrun & Hreg & _).
  - constructor; cbn; try lia.
    + repeat constructor.
    + reflexivity.
    + split; reflexivity.
    + split; reflexivity.
  - discriminate.
  - reflexivity.
  - exists w'. split; [exact Hrun|exact Hreg].
Defined.
